(** * The write path of the Aliyun log hook: [writer.go]

    A shallow embedding of the request pipeline of [writer.go]
    (encode, compress, buildRequest, signature, fire, validateResponse)
    together with the parts of the Go libraries it calls, and the
    properties the specification states about it.

    Conventions.
    - A Go [string] is a byte sequence and is modelled as a Rocq [string];
      a Go [[]byte] is a [list Z] of values in [0, 256).
    - A Go [int] holding a length or an index is a [Z]; slices are far
      shorter than 2^63, so no wrap-around is written for them.  The
      conversions [uint32(...)], [int32(...)] and [byte(...)] are written
      out as the modular reductions they are.
    - A Go map ([http.Header], [Message.Contents]) is a [gmap]; [range]
      over a map yields its entries in an unspecified order, so every
      function that ranges over a map takes the enumeration as an argument
      (any permutation of [map_to_list]). *)

From Stdlib Require Import ZArith Ascii String.
From stdpp Require Import gmap strings list sorting pretty.

Local Open Scope Z_scope.
Set Warnings "-register-all".

(** ** Bytes and strings *)

Definition bytes_of_string (s : string) : list Z :=
  (λ a, Z.of_N (N_of_ascii a)) <$> list_ascii_of_string s.

Definition string_of_bytes (l : list Z) : string :=
  string_of_list_ascii ((λ z, ascii_of_N (Z.to_N (z mod 256))) <$> l).

Definition is_upper (a : ascii) : bool :=
  let n := N_of_ascii a in (65 <=? n)%N && (n <=? 90)%N.

Definition is_lower (a : ascii) : bool :=
  let n := N_of_ascii a in (97 <=? n)%N && (n <=? 122)%N.

Definition is_digit (a : ascii) : bool :=
  let n := N_of_ascii a in (48 <=? n)%N && (n <=? 57)%N.

Definition lower_ascii (a : ascii) : ascii :=
  if is_upper a then ascii_of_N (N_of_ascii a + 32) else a.

Definition upper_ascii (a : ascii) : ascii :=
  if is_lower a then ascii_of_N (N_of_ascii a - 32) else a.

(** The letters A-Z of [s] in lower case, its other bytes as they are. *)
Fixpoint lower_bytes (s : string) : string :=
  match s with
  | EmptyString => EmptyString
  | String a s => String (lower_ascii a) (lower_bytes s)
  end.

Definition is_ascii (a : ascii) : bool := (N_of_ascii a <? 128)%N.

(** The part of [strings.ToLower] that needs the case tables of Unicode:
    [strings.Map(unicode.ToLower, s)], which Go calls on a string that has
    a byte above 0x7F.  The tables are not written out; they are a
    parameter of everything that lower-cases a string.  What is used of
    them is that [strings.Map] works rune by rune and that a byte below
    0x80 is a rune of its own, which [unicode.ToLower] maps as ASCII
    does. *)
Class UnicodeTables := {
  Map_ToLower : string → string;
  Map_ToLower_ascii (a : ascii) (s : string) :
    is_ascii a = true →
    Map_ToLower (String a s) = String (lower_ascii a) (Map_ToLower s)
}.

(** Tables with no entry, which leave every rune above 0x7F as it is, to
    run the definitions on ASCII data, where the tables are not
    consulted.  They are no instance: a statement holds for every table
    unless it names these. *)
Definition ascii_tables : UnicodeTables :=
  {| Map_ToLower := lower_bytes; Map_ToLower_ascii := λ a s _, eq_refl |}.

Section Lowering.
Context `{!UnicodeTables}.

(** [strings.ToLower]: the bytes of an ASCII string are lower-cased in
    place; any other string goes through the tables. *)
Definition ToLower (s : string) : string :=
  if forallb is_ascii (list_ascii_of_string s) then lower_bytes s
  else Map_ToLower s.
End Lowering.

(** [asciiSpace]: the white space of ASCII. *)
Definition is_space (a : ascii) : bool :=
  let n := N_of_ascii a in
  (n =? 9)%N || (n =? 10)%N || (n =? 11)%N || (n =? 12)%N || (n =? 13)%N
  || (n =? 32)%N.

(** The white space of [unicode.IsSpace] outside ASCII, in UTF-8:
    U+0085 and U+00A0 take two bytes; U+1680, U+2000 to U+200A, U+2028,
    U+2029, U+202F, U+205F and U+3000 take three. *)
Definition is_space2 (a b : ascii) : bool :=
  let '(x, y) := (N_of_ascii a, N_of_ascii b) in
  ((x =? 0xC2) && ((y =? 0x85) || (y =? 0xA0)))%N.

Definition is_space3 (a b c : ascii) : bool :=
  let '(x, y, z) := (N_of_ascii a, N_of_ascii b, N_of_ascii c) in
  (((x =? 0xE1) && (y =? 0x9A) && (z =? 0x80))
   || ((x =? 0xE2) && (y =? 0x80)
       && (((0x80 <=? z) && (z <=? 0x8A))
           || (z =? 0xA8) || (z =? 0xA9) || (z =? 0xAF)))
   || ((x =? 0xE2) && (y =? 0x81) && (z =? 0x9F))
   || ((x =? 0xE3) && (y =? 0x80) && (z =? 0x80)))%N.

(** [strings.TrimLeftFunc(s, unicode.IsSpace)]: runes are decoded from the
    front, and a byte that starts no white space ends the run. *)
Fixpoint trim_left (s : string) : string :=
  match s with
  | EmptyString => EmptyString
  | String a s1 =>
      if is_space a then trim_left s1
      else
        match s1 with
        | EmptyString => s
        | String b s2 =>
            if is_space2 a b then trim_left s2
            else
              match s2 with
              | EmptyString => s
              | String c s3 => if is_space3 a b c then trim_left s3 else s
              end
        end
  end.

(** [strings.TrimRightFunc(s, unicode.IsSpace)] on the reversed string:
    runes are decoded from the end, last byte first. *)
Fixpoint trim_left_rev (s : string) : string :=
  match s with
  | EmptyString => EmptyString
  | String a s1 =>
      if is_space a then trim_left_rev s1
      else
        match s1 with
        | EmptyString => s
        | String b s2 =>
            if is_space2 b a then trim_left_rev s2
            else
              match s2 with
              | EmptyString => s
              | String c s3 =>
                  if is_space3 c b a then trim_left_rev s3 else s
              end
        end
  end.

(** [strings.TrimSpace]: the white space of Unicode removed from both
    ends. *)
Definition TrimSpace (s : string) : string :=
  String.rev (trim_left_rev (String.rev (trim_left s))).

(** [strings.HasPrefix s prefix]. *)
Definition HasPrefix (s prefix : string) : bool := String.prefix prefix s.

(** [strings.Join elems sep]. *)
Definition Join (elems : list string) (sep : string) : string :=
  String.concat sep elems.

(** [sort.Strings]: ascending byte-wise order.  Equal strings are
    indistinguishable, so the result does not depend on the algorithm. *)
Definition sort_Strings (l : list string) : list string :=
  merge_sort String.le l.

(** ** [crypto/sha1], [crypto/hmac], [encoding/base64] *)

Definition wrap32 (x : Z) : Z := x mod 2 ^ 32.

Definition rotl32 (n x : Z) : Z :=
  wrap32 (Z.lor (Z.shiftl x n) (Z.shiftr x (32 - n))).

(** The [n] low bytes of [x], most significant first. *)
Definition be_bytes (n : nat) (x : Z) : list Z :=
  (λ i : nat, Z.shiftr x (8 * Z.of_nat i) mod 256) <$> reverse (seq 0 n).

Definition be_word (bs : list Z) : Z :=
  foldl (λ acc b, acc * 256 + b) 0 bs.

(** [l] cut into pieces of [n] elements (the last one may be shorter). *)
Fixpoint chunks {A} (fuel n : nat) (l : list A) : list (list A) :=
  match fuel, l with
  | _, [] => []
  | O, _ => []
  | S fuel, _ => take n l :: chunks fuel n (drop n l)
  end.

Definition sha1_pad (msg : list Z) : list Z :=
  let len := Z.of_nat (length msg) in
  msg ++ [128] ++ replicate (Z.to_nat ((55 - len) mod 64)) 0
      ++ be_bytes 8 (8 * len).

Definition sha1_schedule (block : list Z) : list Z :=
  foldl (λ w (t : nat),
      let g (i : nat) := nth (t - i) w 0 in
      w ++ [rotl32 1 (Z.lxor (Z.lxor (g 3%nat) (g 8%nat))
                             (Z.lxor (g 14%nat) (g 16%nat)))])
    (be_word <$> chunks 16 4 block) (seq 16 64).

Definition sha1_f (t : nat) (b c d : Z) : Z :=
  if (t <? 20)%nat then Z.lor (Z.land b c) (Z.land (Z.lxor b (2 ^ 32 - 1)) d)
  else if (t <? 40)%nat then Z.lxor (Z.lxor b c) d
  else if (t <? 60)%nat then Z.lor (Z.lor (Z.land b c) (Z.land b d)) (Z.land c d)
  else Z.lxor (Z.lxor b c) d.

Definition sha1_k (t : nat) : Z :=
  if (t <? 20)%nat then 0x5A827999
  else if (t <? 40)%nat then 0x6ED9EBA1
  else if (t <? 60)%nat then 0x8F1BBCDC
  else 0xCA62C1D6.

Definition sha1_state : Type := Z * Z * Z * Z * Z.

Definition sha1_round (w : list Z) (st : sha1_state) (t : nat) : sha1_state :=
  let '(a, b, c, d, e) := st in
  (wrap32 (rotl32 5 a + sha1_f t b c d + e + sha1_k t + nth t w 0),
   a, rotl32 30 b, c, d).

Definition sha1_block (st : sha1_state) (block : list Z) : sha1_state :=
  let w := sha1_schedule block in
  let '(a, b, c, d, e) := foldl (sha1_round w) st (seq 0 80) in
  let '(h0, h1, h2, h3, h4) := st in
  (wrap32 (h0 + a), wrap32 (h1 + b), wrap32 (h2 + c), wrap32 (h3 + d),
   wrap32 (h4 + e)).

Definition sha1_init : sha1_state :=
  (0x67452301, 0xEFCDAB89, 0x98BADCFE, 0x10325476, 0xC3D2E1F0).

(** SHA-1 (RFC 3174) of a byte sequence: the 20 digest bytes. *)
Definition sha1 (msg : list Z) : list Z :=
  let p := sha1_pad msg in
  let '(h0, h1, h2, h3, h4) :=
    foldl sha1_block sha1_init (chunks (length p) 64 p) in
  be_bytes 4 h0 ++ be_bytes 4 h1 ++ be_bytes 4 h2 ++ be_bytes 4 h3
    ++ be_bytes 4 h4.

(** HMAC (RFC 2104) over SHA-1, block size 64: [hmac.New(sha1.New, key)],
    [Write(msg)], [Sum(nil)]. *)
Definition hmac_sha1 (key msg : list Z) : list Z :=
  let k := if 64 <? Z.of_nat (length key) then sha1 key else key in
  let k := k ++ replicate (64 - length k)%nat 0 in
  sha1 ((Z.lxor 0x5c <$> k) ++ sha1 ((Z.lxor 0x36 <$> k) ++ msg)).

Definition b64_alphabet : list ascii :=
  list_ascii_of_string
    "ABCDEFGHIJKLMNOPQRSTUVWXYZabcdefghijklmnopqrstuvwxyz0123456789+/".

Definition b64_char (x : Z) : ascii :=
  nth (Z.to_nat x) b64_alphabet "="%char.

(** [base64.StdEncoding.EncodeToString]: RFC 4648 with [=] padding. *)
Fixpoint b64_encode (l : list Z) : list ascii :=
  match l with
  | [] => []
  | [a] =>
      [b64_char (a / 4); b64_char (a mod 4 * 16); "="%char; "="%char]
  | [a; b] =>
      [b64_char (a / 4); b64_char (a mod 4 * 16 + b / 16);
       b64_char (b mod 16 * 4); "="%char]
  | a :: b :: c :: l =>
      b64_char (a / 4) :: b64_char (a mod 4 * 16 + b / 16)
        :: b64_char (b mod 16 * 4 + c / 64) :: b64_char (c mod 64)
        :: b64_encode l
  end.

Definition EncodeToString (l : list Z) : string :=
  string_of_list_ascii (b64_encode l).

(** ** [net/textproto] and [net/http]: headers *)

(** [validHeaderFieldByte]: the token characters of RFC 7230. *)
Definition validHeaderFieldByte (a : ascii) : bool :=
  is_upper a || is_lower a || is_digit a
  || bool_decide (a ∈ list_ascii_of_string "!#$%&'*+-.^_`|~").

Fixpoint canonical_go (upper : bool) (s : string) : string :=
  match s with
  | EmptyString => EmptyString
  | String c s =>
      let c' := if upper then upper_ascii c else lower_ascii c in
      String c' (canonical_go (bool_decide (c' = "-"%char)) s)
  end.

(** [textproto.CanonicalMIMEHeaderKey]: the first letter and every letter
    after a hyphen in upper case, the others in lower case; a key with a
    byte that is not a token character is returned as it is. *)
Definition CanonicalMIMEHeaderKey (s : string) : string :=
  if forallb validHeaderFieldByte (list_ascii_of_string s)
  then canonical_go true s else s.

(** [http.Header.Get]: the first value stored under the canonical form of
    [key], or the empty string. *)
Definition Header_Get (h : gmap string (list string)) (key : string) : string :=
  match h !! CanonicalMIMEHeaderKey key with
  | Some (v :: _) => v
  | _ => EmptyString
  end.

(** ** [net/url]: the escaped path *)

Record URL := mkURL {
  Host : string;
  Path : string;
  RawPath : string;
  RawQuery : string
}.

(** [shouldEscape c encodePath]. *)
Definition shouldEscape (c : ascii) : bool :=
  if is_lower c || is_upper c || is_digit c then false
  else if bool_decide (c ∈ list_ascii_of_string "-_.~") then false
  else if bool_decide (c ∈ list_ascii_of_string "$&+,/:;=?@")
       then bool_decide (c = "?"%char)
  else true.

Definition upperhex (x : N) : ascii :=
  nth (N.to_nat x) (list_ascii_of_string "0123456789ABCDEF") "0"%char.

(** [escape s encodePath]: percent-encoding of the bytes that
    [shouldEscape]. *)
Fixpoint escape (s : string) : string :=
  match s with
  | EmptyString => EmptyString
  | String c s =>
      if shouldEscape c
      then String "%" (String (upperhex (N_of_ascii c / 16))
             (String (upperhex (N_of_ascii c mod 16)) (escape s)))
      else String c (escape s)
  end.

Definition unhex (c : ascii) : option N :=
  let n := N_of_ascii c in
  if is_digit c then Some (n - 48)%N
  else if (97 <=? n)%N && (n <=? 102)%N then Some (n - 97 + 10)%N
  else if (65 <=? n)%N && (n <=? 70)%N then Some (n - 65 + 10)%N
  else None.

(** [unescape s encodePath]; [None] is Go's [EscapeError]. *)
Fixpoint unescape (s : string) : option string :=
  match s with
  | EmptyString => Some EmptyString
  | String "%" (String a (String b s')) =>
      match unhex a, unhex b with
      | Some x, Some y => String (ascii_of_N (x * 16 + y)) <$> unescape s'
      | _, _ => None
      end
  | String "%" _ => None
  | String c s' => String c <$> unescape s'
  end.

(** [validEncoded s encodePath]. *)
Definition validEncoded (s : string) : bool :=
  forallb (λ c,
      bool_decide (c ∈ list_ascii_of_string "!$&'()*+,;=:@[]%")
      || negb (shouldEscape c))
    (list_ascii_of_string s).

(** [URL.EscapedPath]: [RawPath] when it is a valid encoding of [Path],
    the escaped [Path] otherwise.  [RawQuery] is not read. *)
Definition EscapedPath (u : URL) : string :=
  if bool_decide (RawPath u ≠ EmptyString) && validEncoded (RawPath u)
     && bool_decide (unescape (RawPath u) = Some (Path u))
  then RawPath u
  else if bool_decide (Path u = "*"%string) then "*"%string
  else escape (Path u).

(** ** Requests and the signature ([writer.go], [signature]) *)

Record Request := mkRequest {
  Method : string;
  ReqURL : URL;
  ReqHeader : gmap string (list string);
  ReqBody : list Z
}.

Section Signer.
Context `{!UnicodeTables}.

(** The body of the loop of [signature] for one header entry: the line
    of a vendor header that has at least one value, nothing otherwise. *)
Definition section_of (kv : string * list string) : option string :=
  let '(k, v) := kv in
  if bool_decide (0 < length v)%nat
     && (HasPrefix k "X-Log-" || HasPrefix k "X-Acs-")
  then Some (ToLower k +:+ ":" +:+ TrimSpace (Join v ","))
  else None.

(** [sections] after the loop, [range] having yielded the entries of
    [req.Header] in the order [kvs]. *)
Definition sections_in (kvs : list (string * list string)) : list string :=
  omap section_of kvs.

(** [signStr] of [signature]. *)
Definition signStr_in (kvs : list (string * list string)) (req : Request)
  : string :=
  let arr := [Method req;
              Header_Get (ReqHeader req) "Content-MD5";
              Header_Get (ReqHeader req) "Content-Type";
              Header_Get (ReqHeader req) "Date"] in
  let arr := arr ++ sort_Strings (sections_in kvs) in
  let arr := arr ++ [EscapedPath (ReqURL req)] in
  Join arr (String "010" EmptyString).

Definition signStr (req : Request) : string :=
  signStr_in (map_to_list (ReqHeader req)) req.

(** [signature secret req].  [mac.Write] of an HMAC never fails, so the
    error result is always nil and only the digest is returned. *)
Definition signature_in (kvs : list (string * list string))
    (secret : list Z) (req : Request) : string :=
  EncodeToString (hmac_sha1 secret (bytes_of_string (signStr_in kvs req))).

Definition signature (secret : list Z) (req : Request) : string :=
  signature_in (map_to_list (ReqHeader req)) secret req.
End Signer.

(** ** JSON documents ([encoding/json]) *)

(** A JSON document as the scanner of [encoding/json] reads it: object
    members in the order of the text, duplicates kept, a number as its
    literal. *)
Inductive json :=
  | JNull
  | JBool (b : bool)
  | JNumber (lit : string)
  | JString (s : string)
  | JArray (items : list json)
  | JObject (members : list (string * json)).

(** What a JSON document means: an object is a finite map in which a later
    duplicate member replaces an earlier one.  Two documents are
    semantically equal when their meanings are equal (numbers are
    compared by literal, which is finer than comparing their values). *)
Inductive jval :=
  | VNull
  | VBool (b : bool)
  | VNumber (lit : string)
  | VString (s : string)
  | VArray (items : list jval)
  | VObject (members : gmap string jval).

Fixpoint json_sem (j : json) : jval :=
  match j with
  | JNull => VNull
  | JBool b => VBool b
  | JNumber n => VNumber n
  | JString s => VString s
  | JArray l => VArray (json_sem <$> l)
  | JObject ms =>
      VObject (list_to_map (reverse ((λ kv, (kv.1, json_sem kv.2)) <$> ms)))
  end.

(** ** Errors *)

(** Modelled from the spec: the declaration of [AliyunError] is not part
    of the sources at hand.  It has the four fields the tests build it
    with; the JSON body maps [errorCode] to [Code] and [errorMessage] to
    [Message], and [HTTPCode] and [RequestID] take no part in JSON.
    (The field [Message] is [ErrMessage] here, [Message] being the type
    of a log message.) *)
Record AliyunError := mkAliyunError {
  HTTPCode : Z;
  Code : string;
  ErrMessage : string;
  RequestID : string
}.

(** The errors of [json.Decoder.Decode]. *)
Inductive decode_error :=
  | SyntaxError (msg : string)
  | UnmarshalTypeError (value : string) (field : string).

(** A Go [error] value; [None] of [option error] is [nil]. *)
Inductive error :=
  | ErrAliyun (e : AliyunError)
  | ErrDecode (d : decode_error)
  | ErrLibrary (msg : string).

Inductive json_field := FieldCode | FieldMessage.

Global Instance json_field_eq_dec : EqDecision json_field.
Proof. solve_decision. Defined.

Definition field_name (f : json_field) : string :=
  match f with
  | FieldCode => "errorCode"
  | FieldMessage => "errorMessage"
  end.

(** Whether [key] is the ASCII [name] up to the simple case folding of
    Unicode, as [bytes.EqualFold] has it: a letter matches in either
    case, and besides U+017F (long s) matches s and U+212A (the Kelvin
    sign) matches k. *)
Fixpoint EqualFold (name key : string) {struct name} : bool :=
  match name, key with
  | EmptyString, EmptyString => true
  | String c name', String k key' =>
      if bool_decide (lower_ascii k = lower_ascii c) then EqualFold name' key'
      else if bool_decide (lower_ascii c = "s"%char) then
        match key with
        | String "197" (String "191" key'') => EqualFold name' key''
        | _ => false
        end
      else if bool_decide (lower_ascii c = "k"%char) then
        match key with
        | String "226" (String "132" (String "170" key'')) =>
            EqualFold name' key''
        | _ => false
        end
      else false
  | _, _ => false
  end.

(** The field an object key is stored into: the one with that very name,
    else the one whose name equals the key up to case folding. *)
Definition match_field (k : string) : option json_field :=
  if bool_decide (k = field_name FieldCode) then Some FieldCode
  else if bool_decide (k = field_name FieldMessage) then Some FieldMessage
  else if EqualFold (field_name FieldCode) k then Some FieldCode
  else if EqualFold (field_name FieldMessage) k then Some FieldMessage
  else None.

Definition set_field (f : json_field) (s : string) (e : AliyunError)
  : AliyunError :=
  match f with
  | FieldCode => mkAliyunError (HTTPCode e) s (ErrMessage e) (RequestID e)
  | FieldMessage => mkAliyunError (HTTPCode e) (Code e) s (RequestID e)
  end.

Definition json_kind (j : json) : string :=
  match j with
  | JNull => "null"
  | JBool _ => "bool"
  | JNumber _ => "number"
  | JString _ => "string"
  | JArray _ => "array"
  | JObject _ => "object"
  end.

(** One object member stored into the struct: a string sets its field,
    [null] and unknown keys change nothing, another kind of value is a
    type error; the first such error is kept and returned at the end. *)
Definition unmarshal_member (st : AliyunError * option decode_error)
    (kv : string * json) : AliyunError * option decode_error :=
  let '(e, err) := st in
  match match_field kv.1 with
  | None => st
  | Some f =>
      match kv.2 with
      | JString s => (set_field f s e, err)
      | JNull => st
      | v =>
          (e, match err with
              | Some _ => err
              | None => Some (UnmarshalTypeError (json_kind v) (field_name f))
              end)
      end
  end.

(** [json.Unmarshal] of a document into a [*AliyunError]. *)
Definition unmarshal (j : json) (e : AliyunError)
  : decode_error + AliyunError :=
  match j with
  | JNull => inr e
  | JObject ms =>
      match foldl unmarshal_member (e, None) ms with
      | (_, Some err) => inl err
      | (e', None) => inr e'
      end
  | v => inl (UnmarshalTypeError (json_kind v) EmptyString)
  end.

(** Modelled from the spec: [AliyunError.Error] is not part of the sources
    at hand; the error serializes back to the two-field JSON shape it was
    decoded from. *)
Definition AliyunError_Error (e : AliyunError) : json :=
  JObject [(field_name FieldCode, JString (Code e));
           (field_name FieldMessage, JString (ErrMessage e))].

(** ** Responses and their validation ([writer.go], [validateResponse]) *)

Record Response := mkResponse {
  StatusCode : Z;
  RespHeader : gmap string (list string);
  RespBody : list Z
}.

Definition StatusBadRequest : Z := 400.

(** [int32(x)] of a Go [int]. *)
Definition to_int32 (x : Z) : Z := (x + 2 ^ 31) mod 2 ^ 32 - 2 ^ 31.

Section Validator.
(** The scanner of [encoding/json]: the first JSON value of the body, or
    the error of a malformed or empty body. *)
Variable json_scan : list Z → decode_error + json.

(** [json.NewDecoder(body).Decode(&e)]. *)
Definition json_Decode (body : list Z) (e : AliyunError)
  : decode_error + AliyunError :=
  match json_scan body with
  | inl err => inl err
  | inr j => unmarshal j e
  end.

Definition validateResponse (resp : Response) : option error :=
  if StatusCode resp <? StatusBadRequest then None
  else
    let aErr := mkAliyunError (to_int32 (StatusCode resp)) EmptyString
                  EmptyString (Header_Get (RespHeader resp) "X-Log-Requestid") in
    match json_Decode (RespBody resp) aErr with
    | inl err => Some (ErrDecode err)
    | inr aErr => Some (ErrAliyun aErr)
    end.
End Validator.

(** ** Compression ([writer.go], [compress] and [copyIncompressible]) *)

(** How a call ends: with results, with a Go error, with a run-time
    panic (an index out of range), or, for the model only, because the
    fuel of a loop ran out. *)
Inductive outcome (A : Type) :=
  | Done (a : A)
  | Failed (e : error)
  | Panicked
  | OutOfFuel.
Arguments Done {A} a.
Arguments Failed {A} e.
Arguments Panicked {A}.
Arguments OutOfFuel {A}.

Definition len {A} (l : list A) : Z := Z.of_nat (length l).

(** [byte(x)]. *)
Definition to_byte (x : Z) : Z := x mod 256.

(** [dst[i] = x]: the updated slice, or [None] when [i] is out of range. *)
Definition store (dst : list Z) (i x : Z) : option (list Z) :=
  if (0 <=? i) && (i <? len dst) then Some (<[Z.to_nat i := x]> dst) else None.

(** [copy(dst[di:], src)]: the updated slice and the number of bytes
    copied, [min(len(dst) - di, len(src))]. *)
Definition copy_at (dst : list Z) (di : Z) (src : list Z) : list Z * Z :=
  let k := Z.min (len dst - di) (len src) in
  (take (Z.to_nat di) dst ++ take (Z.to_nat k) src
     ++ drop (Z.to_nat (di + k)) dst, k).

(** How the loop of [copyIncompressible] ends. *)
Inductive loop_end :=
  | LoopReturn (dst : list Z) (di : Z)
  | LoopExit (dst : list Z) (di lLen : Z)
  | LoopPanic
  | LoopFuel.

(** [for ; lLen >= 0xFF; lLen -= 0xFF { dst[di] = 0xFF; if di++; di == dn
    { return di, nil } }] *)
Fixpoint ff_loop (fuel : nat) (dst : list Z) (di lLen dn : Z) : loop_end :=
  if 0xFF <=? lLen then
    match fuel with
    | O => LoopFuel
    | S fuel =>
        match store dst di 0xFF with
        | None => LoopPanic
        | Some dst =>
            let di := di + 1 in
            if di =? dn then LoopReturn dst di
            else ff_loop fuel dst di (lLen - 0xFF) dn
        end
    end
  else LoopExit dst di lLen.

(** The tail of [copyIncompressible], from [if di++; di+len(src) > dn]. *)
Definition copy_literals (src dst : list Z) (di dn : Z)
  : outcome (list Z * Z) :=
  let di := di + 1 in
  if dn <? di + len src then Done (dst, di)
  else let '(dst, k) := copy_at dst di src in Done (dst, di + k).

(** [copyIncompressible(src, dst)]: the contents of [dst] after the call
    and the returned count; the returned error is nil on every path. *)
Definition copyIncompressible (src dst : list Z) : outcome (list Z * Z) :=
  let lLen := len src in
  let dn := len dst in
  let di := 0 in
  if lLen <? 0xF then
    match store dst di (to_byte (Z.shiftl lLen 4)) with
    | None => Panicked
    | Some dst => copy_literals src dst di dn
    end
  else
    match store dst di 0xF0 with
    | None => Panicked
    | Some dst =>
        let di := di + 1 in
        if di =? dn then Done (dst, di)
        else
          let lLen := lLen - 0xF in
          match ff_loop (Z.to_nat lLen) dst di lLen dn with
          | LoopReturn dst di => Done (dst, di)
          | LoopPanic => Panicked
          | LoopFuel => OutOfFuel
          | LoopExit dst di lLen =>
              match store dst di (to_byte lLen) with
              | None => Panicked
              | Some dst => copy_literals src dst di dn
              end
          end
    end.

(** [lz4.CompressBlockBound]. *)
Definition CompressBlockBound (n : Z) : Z := n + n / 255 + 16.

(** [out[:n]] of a slice whose capacity is its length. *)
Definition slice_to (out : list Z) (n : Z) : outcome (list Z) :=
  if (0 <=? n) && (n <=? len out) then Done (take (Z.to_nat n) out)
  else Panicked.

(** The contents of the caller's slice [dst] after a callee has left the
    bytes [written] at its front: a callee cannot change its length. *)
Definition overwrite (dst written : list Z) : list Z :=
  take (length dst) (written ++ drop (length written) dst).

Section Compressor.
(** [lz4.CompressBlock(src, dst, hashTable)] of the LZ4 library: the
    bytes it left at the front of [dst] and the count it returns, or an
    error.  The hash table is scratch space of the library. *)
Variable CompressBlock : list Z → list Z → error + (list Z * Z).

Definition compress (data : list Z) : outcome (list Z) :=
  let out := replicate (Z.to_nat (CompressBlockBound (len data))) 0 in
  match CompressBlock data out with
  | inl err => Failed err
  | inr (written, n) =>
      let out := overwrite out written in
      if n =? 0 then
        match copyIncompressible data out with
        | Done (out, n) => slice_to out n
        | Failed err => Failed err
        | Panicked => Panicked
        | OutOfFuel => OutOfFuel
        end
      else slice_to out n
  end.
End Compressor.

(** The literal-only LZ4 block for [src]: the token, the continuation
    bytes of the length and the literals. *)
Definition literal_header (l : Z) : list Z :=
  if l <? 0xF then [l * 16]
  else [0xF0] ++ replicate (Z.to_nat ((l - 0xF) / 0xFF)) 0xFF
         ++ [(l - 0xF) mod 0xFF].

Definition literal_block (src : list Z) : list Z :=
  literal_header (len src) ++ src.


(** The count [copyIncompressible] returns: the length of the block when
    the destination holds it, else as much of the header as fits. *)
Definition literal_count (src dst : list Z) : nat :=
  if decide (length (literal_block src) ≤ length dst)%nat
  then length (literal_block src)
  else (length dst `min` length (literal_header (len src)))%nat.

(** A compressor that finds every input incompressible. *)
Definition incompressible (src dst : list Z) : error + (list Z * Z) :=
  inr ([], 0).

(** ** The binary payload ([proto.Marshal] of [api.LogGroup]) *)

(** Modelled from the spec: the generated package [api] is not part of the
    sources at hand.  The schema is the one of the specification:
    a group is [{1: topic (string), 2: source (string), 3: repeated log}],
    a log is [{1: time (uint32), 2: repeated content}], a content is
    [{1: key (string), 2: value (string)}]; the fields are proto2 pointers,
    written when set. *)
Record Log_Content := mkLog_Content {
  Key : option string;
  Value : option string
}.

Record Log := mkLog {
  LogTime : option Z;
  LogContents : list Log_Content
}.

Record LogGroup := mkLogGroup {
  Topic : option string;
  Source : option string;
  Logs : list Log
}.

(** A field of the wire format: a varint (wire type 0) or a
    length-delimited byte string (wire type 2) under a field number. *)
Inductive wire_field :=
  | WVarint (tag v : Z)
  | WBytes (tag : Z) (b : list Z).

(** Base-128 varint of a non-negative value, low group first; the fuel
    is the number of continuation bytes allowed, and [varint] gives more
    than any value needs. *)
Fixpoint varint_go (fuel : nat) (n : Z) : list Z :=
  match fuel with
  | O => [n mod 128]
  | S fuel =>
      if n <? 128 then [n] else (n mod 128 + 128) :: varint_go fuel (n / 128)
  end.

Definition varint (n : Z) : list Z := varint_go (Z.to_nat (Z.log2 n)) n.

Definition enc_field (f : wire_field) : list Z :=
  match f with
  | WVarint tag v => varint (tag * 8 + 0) ++ varint v
  | WBytes tag b => varint (tag * 8 + 2) ++ varint (len b) ++ b
  end.

(** Field numbers and varint values are unsigned. *)
Definition valid_field (f : wire_field) : Prop :=
  match f with
  | WVarint tag v => 0 ≤ tag ∧ 0 ≤ v
  | WBytes tag _ => 0 ≤ tag
  end.

Definition enc_fields (fs : list wire_field) : list Z :=
  concat (enc_field <$> fs).

Definition opt_field {A} (f : A → wire_field) (o : option A)
  : list wire_field :=
  match o with Some a => [f a] | None => [] end.

Definition Content_fields (c : Log_Content) : list wire_field :=
  opt_field (λ s, WBytes 1 (bytes_of_string s)) (Key c)
    ++ opt_field (λ s, WBytes 2 (bytes_of_string s)) (Value c).

Definition Log_fields (l : Log) : list wire_field :=
  opt_field (WVarint 1) (LogTime l)
    ++ ((λ c, WBytes 2 (enc_fields (Content_fields c))) <$> LogContents l).

Definition LogGroup_fields (g : LogGroup) : list wire_field :=
  opt_field (λ s, WBytes 1 (bytes_of_string s)) (Topic g)
    ++ opt_field (λ s, WBytes 2 (bytes_of_string s)) (Source g)
    ++ ((λ l, WBytes 3 (enc_fields (Log_fields l))) <$> Logs g).

(** [proto.Marshal(group)]. *)
Definition Marshal (g : LogGroup) : list Z := enc_fields (LogGroup_fields g).

(** Reading back.  [None] is a malformed payload. *)
Fixpoint read_varint (l : list Z) : option (Z * list Z) :=
  match l with
  | [] => None
  | b :: l =>
      if b <? 128 then Some (b, l)
      else match read_varint l with
           | Some (v, r) => Some (b - 128 + 128 * v, r)
           | None => None
           end
  end.

Definition read_field (l : list Z) : option (wire_field * list Z) :=
  match read_varint l with
  | None => None
  | Some (k, l) =>
      if k mod 8 =? 0 then
        match read_varint l with
        | Some (v, r) => Some (WVarint (k / 8) v, r)
        | None => None
        end
      else if k mod 8 =? 2 then
        match read_varint l with
        | Some (n, r) =>
            if n <=? len r
            then Some (WBytes (k / 8) (take (Z.to_nat n) r), drop (Z.to_nat n) r)
            else None
        | None => None
        end
      else None
  end.

Fixpoint read_fields (fuel : nat) (l : list Z) : option (list wire_field) :=
  match l with
  | [] => Some []
  | _ =>
      match fuel with
      | O => None
      | S fuel =>
          match read_field l with
          | Some (f, r) => cons f <$> read_fields fuel r
          | None => None
          end
      end
  end.

Definition parse_fields (l : list Z) : option (list wire_field) :=
  read_fields (length l) l.

Definition Content_step (c : Log_Content) (f : wire_field) : Log_Content :=
  match f with
  | WBytes 1 b => mkLog_Content (Some (string_of_bytes b)) (Value c)
  | WBytes 2 b => mkLog_Content (Key c) (Some (string_of_bytes b))
  | _ => c
  end.

Definition Content_of (fs : list wire_field) : Log_Content :=
  foldl Content_step (mkLog_Content None None) fs.

Definition Log_step (o : option Log) (f : wire_field) : option Log :=
  match o, f with
  | Some l, WVarint 1 v => Some (mkLog (Some (v mod 2 ^ 32)) (LogContents l))
  | Some l, WBytes 2 b =>
      match parse_fields b with
      | Some cs => Some (mkLog (LogTime l) (LogContents l ++ [Content_of cs]))
      | None => None
      end
  | _, _ => o
  end.

Definition Log_of (fs : list wire_field) : option Log :=
  foldl Log_step (Some (mkLog None [])) fs.

Definition LogGroup_step (o : option LogGroup) (f : wire_field)
  : option LogGroup :=
  match o, f with
  | Some g, WBytes 1 b =>
      Some (mkLogGroup (Some (string_of_bytes b)) (Source g) (Logs g))
  | Some g, WBytes 2 b =>
      Some (mkLogGroup (Topic g) (Some (string_of_bytes b)) (Logs g))
  | Some g, WBytes 3 b =>
      match parse_fields b ≫= Log_of with
      | Some l => Some (mkLogGroup (Topic g) (Source g) (Logs g ++ [l]))
      | None => None
      end
  | _, _ => o
  end.

Definition LogGroup_of (fs : list wire_field) : option LogGroup :=
  foldl LogGroup_step (Some (mkLogGroup None None [])) fs.

(** [proto.Unmarshal] into an [api.LogGroup]: unknown fields are skipped,
    a later scalar replaces an earlier one, repeated fields accumulate. *)
Definition Unmarshal (l : list Z) : option LogGroup :=
  parse_fields l ≫= LogGroup_of.



(** ** Messages and their encoding ([writer.go], [encode]) *)

(** A [time.Time]: whole seconds since the Unix epoch and the nanoseconds
    within the second. *)
Record Time := mkTime {
  unix_sec : Z;
  nsec : Z
}.

(** [t.Unix()]. *)
Definition Unix (t : Time) : Z := unix_sec t.

(** [uint32(x)] of an [int64]. *)
Definition to_uint32 (x : Z) : Z := x mod 2 ^ 32.

Record Message := mkMessage {
  MsgTime : Time;
  Contents : gmap string string
}.

Record writer := mkWriter {
  method : string;
  appKey : string;
  appSecret : list Z;
  uri : URL;
  hHost : list string;
  topic : string;
  source : string
}.

Section Encoder.
(** The order in which [range message.Contents] yields the entries. *)
Variable range_Contents : gmap string string → list (string * string).

(** The inner loop of [encode]. *)
Definition contents_of (m : Message) : list Log_Content :=
  (λ kv, mkLog_Content (Some kv.1) (Some kv.2)) <$> range_Contents (Contents m).

(** [group] at the end of the outer loop of [encode]. *)
Definition group_of (w : writer) (messages : list Message) : LogGroup :=
  mkLogGroup (Some (topic w)) (Some (source w))
    ((λ m, mkLog (Some (to_uint32 (Unix (MsgTime m)))) (contents_of m))
       <$> messages).

(** [w.encode(messages...)]; [proto.Marshal] of such a group does not
    fail. *)
Definition encode (w : writer) (messages : list Message) : list Z :=
  Marshal (group_of w messages).
End Encoder.

(** ** The request pipeline ([writer.go], [WriteMessage]) *)

(** What the writer gets from outside: the libraries whose results are not
    computed here, the clock, the HTTP client it was built with, and the
    orders in which [range] walks its maps. *)
Record Env := mkEnv {
  env_CompressBlock : list Z → list Z → error + (list Z * Z);
  env_md5 : list Z → list Z;
  env_gmtNow : string;
  env_NewRequest : string → URL → list Z → error + Request;
  env_Do : Request → error + Response;
  env_json_scan : list Z → decode_error + json;
  env_range_Contents : gmap string string → list (string * string);
  env_range_Header : gmap string (list string) → list (string * list string)
}.

(** The calls made while a message is written, in order. *)
Inductive event :=
  | EvEncode (messages : list Message)
  | EvCompress (raw : list Z)
  | EvBuildRequest (raw data : list Z)
  | EvDo (req : Request)
  | EvClose.

(** Computations that log their calls: the trace is threaded through, and
    an error or a panic ends the computation with the trace so far.
    [Failed e] is Go's [return err]; [Done] carries the results returned
    with a nil error. *)
Definition M (A : Type) : Type := list event → outcome A * list event.

Definition ret {A} (a : A) : M A := λ t, (Done a, t).

Definition bind {A B} (m : M A) (k : A → M B) : M B :=
  λ t, match m t with
       | (Done a, t') => k a t'
       | (Failed e, t') => (Failed e, t')
       | (Panicked, t') => (Panicked, t')
       | (OutOfFuel, t') => (OutOfFuel, t')
       end.

Definition emit (e : event) : M unit := λ t, (Done tt, t ++ [e]).

Definition lift {A} (o : outcome A) : M A := λ t, (o, t).

Definition lift_sum {A} (r : error + A) : M A :=
  lift (match r with inl e => Failed e | inr a => Done a end).

Notation "'let*' x ':=' m 'in' k" := (bind m (λ x, k))
  (at level 10, x name, m at level 100, k at level 200).
Notation "'run' m 'in' k" := (bind m (λ _, k))
  (at level 10, m at level 100, k at level 200).

(** A computation that only adds to the log of calls. *)
Definition extends {A} (c : M A) : Prop :=
  ∀ t, ∃ t', (c t).2 = t ++ t'.

Definition hContentType : list string := ["application/x-protobuf"%string].
Definition hApiVersion : list string := ["0.6.0"%string].
Definition hCompressType : list string := ["lz4"%string].
Definition hSignatureMethod : list string := ["hmac-sha1"%string].

(** [strconv.Itoa]. *)
Definition Itoa (n : Z) : string := pretty n.

(** [fmt.Sprintf("%X", digest)]: two upper-case hexadecimal digits a byte. *)
Definition hex_upper (l : list Z) : string :=
  string_of_list_ascii
    (l ≫= λ b, [upperhex (Z.to_N b / 16); upperhex (Z.to_N b mod 16)]).

Section Writer.
Context `{!UnicodeTables}.
Variable X : Env.

Definition w_encode (w : writer) (messages : list Message) : M (list Z) :=
  run emit (EvEncode messages) in
  ret (encode (env_range_Contents X) w messages).

Definition w_compress (raw : list Z) : M (list Z) :=
  run emit (EvCompress raw) in
  lift (compress (env_CompressBlock X) raw).

Definition buildRequest (w : writer) (raw data : list Z) : M Request :=
  run emit (EvBuildRequest raw data) in
  let* req := lift_sum (env_NewRequest X (method w) (uri w) data) in
  let header : gmap string (list string) :=
    list_to_map
      [("Content-Type"%string, hContentType);
       ("Content-Length"%string, [Itoa (len data)]);
       ("Content-Md5"%string, [hex_upper (env_md5 X data)]);
       ("Date"%string, [env_gmtNow X]);
       ("Host"%string, hHost w);
       ("X-Log-Apiversion"%string, hApiVersion);
       ("X-Log-Bodyrawsize"%string, [Itoa (len raw)]);
       ("X-Log-Compresstype"%string, hCompressType);
       ("X-Log-Signaturemethod"%string, hSignatureMethod)] in
  let req := mkRequest (Method req) (ReqURL req) header (ReqBody req) in
  let sign := signature_in (env_range_Header X header) (appSecret w) req in
  ret (mkRequest (Method req) (ReqURL req)
         (<["Authorization"%string :=
              ["LOG " +:+ appKey w +:+ ":" +:+ sign]]> header)
         (ReqBody req)).

Definition fire (req : Request) : M unit :=
  run emit (EvDo req) in
  let* resp := lift_sum (env_Do X req) in
  let r := validateResponse (env_json_scan X) resp in
  run emit EvClose in
  match r with
  | None => ret tt
  | Some e => lift (Failed e)
  end.

Definition WriteMessage (w : writer) (messages : list Message) : M unit :=
  if len messages =? 0 then ret tt
  else
    let* raw := w_encode w messages in
    let* data := w_compress raw in
    let* req := buildRequest w raw data in
    fire req.
End Writer.

(** ** The canonical string as the specification words it *)

(** A header name that starts with a vendor prefix as it is spelt. *)
Definition vendor_name (k : string) : bool :=
  HasPrefix k "X-Log-" || HasPrefix k "X-Acs-".

Section CanonicalSpec.
Context `{!UnicodeTables}.

(** A header name that starts with a vendor prefix whatever the case of
    its letters. *)
Definition vendor_name_nocase (k : string) : bool :=
  HasPrefix (ToLower k) "x-log-" || HasPrefix (ToLower k) "x-acs-".

(** [lowercase-name:trimmed,comma-joined-values]. *)
Definition header_line (kv : string * list string) : string :=
  ToLower kv.1 +:+ ":" +:+ TrimSpace (Join kv.2 ",").

(** The canonical string of the specification: the method, three header
    values, one line for every header with a vendor prefix (case
    ignored), sorted, and the escaped path. *)
Definition spec_canonical (req : Request) : string :=
  Join ([Method req;
         Header_Get (ReqHeader req) "Content-MD5";
         Header_Get (ReqHeader req) "Content-Type";
         Header_Get (ReqHeader req) "Date"]
        ++ sort_Strings
             (header_line <$>
                filter (λ kv, vendor_name_nocase kv.1)
                       (map_to_list (ReqHeader req)))
        ++ [EscapedPath (ReqURL req)])
       (String "010" EmptyString).
End CanonicalSpec.

(** The headers [signature] reads: the three it looks up and the vendor
    headers. *)
Definition signed_header (k : string) : Prop :=
  k = CanonicalMIMEHeaderKey "Content-MD5"
  ∨ k = CanonicalMIMEHeaderKey "Content-Type"
  ∨ k = CanonicalMIMEHeaderKey "Date"
  ∨ vendor_name k.

(** The request of [TestSignature]. *)
Definition test_request : Request :=
  mkRequest "POST"
    (mkURL "test-project.regionid.example.com" "/logstores/test-logstore"
       EmptyString EmptyString)
    (list_to_map
       [("Date"%string, ["Mon, 09 Nov 2015 06:03:03 GMT"%string]);
        ("Host"%string, ["test-project.regionid.example.com"%string]);
        ("X-Log-Apiversion"%string, ["0.6.0"%string]);
        ("X-Log-Signaturemethod"%string, ["hmac-sha1"%string]);
        ("Content-Md5"%string, ["1DD45FA4A70A9300CC9FE7305AF2C494"%string]);
        ("Content-Length"%string, ["52"%string]);
        ("X-Log-Bodyrawsize"%string, ["50"%string]);
        ("X-Log-Compresstype"%string, ["lz4"%string])])
    [].

(** A request with a vendor header spelt in lower case and one that has
    no value. *)
Definition lowercase_request : Request :=
  mkRequest "POST" (mkURL "h" "/" EmptyString EmptyString)
    (<["x-log-foo"%string := ["1"%string]]>
       {[ "X-Log-Bar"%string := [] ]}) [].

(** The request of [TestSignature] with another [Host] and with an
    [Authorization] header. *)
Definition test_request' : Request :=
  mkRequest (Method test_request) (ReqURL test_request)
    (<["Authorization"%string := ["LOG 123:abc"%string]]>
       (<["Host"%string := ["elsewhere.example.com"%string]]>
          (ReqHeader test_request)))
    [].

(** ** The error body as the specification words it *)

(** The string an object gives to a field: the value of the last member
    stored into it, looked for from the end of the object. *)
Fixpoint field_value (f : json_field) (ms : list (string * json))
  : option string :=
  match ms with
  | [] => None
  | kv :: ms =>
      match field_value f ms with
      | Some s => Some s
      | None =>
          if bool_decide (match_field kv.1 = Some f)
          then match kv.2 with JString s => Some s | _ => None end
          else None
      end
  end.

Definition DefaultErrorText : string :=
  "http extend authorization : LOG :WL2xp3EYvKpsIGgwE3s5HHK7M/c= pair is invalid".

(** A double quote. *)
Definition dq : string := String "034" EmptyString.

Definition get_field (f : json_field) (e : AliyunError) : string :=
  match f with FieldCode => Code e | FieldMessage => ErrMessage e end.

(** The body of the error response of [TestWriter]. *)
Definition DefaultErrorMessage : string :=
  "{" +:+ dq +:+ "errorCode" +:+ dq +:+ ":" +:+ dq +:+ "ParameterInvalid"
    +:+ dq +:+ "," +:+ dq +:+ "errorMessage" +:+ dq +:+ ":" +:+ dq
    +:+ DefaultErrorText +:+ dq +:+ "}".

Definition DefaultErrorJSON : json :=
  JObject
    [("errorCode"%string, JString "ParameterInvalid");
     ("errorMessage"%string, JString DefaultErrorText)].

(** A scanner that reads the test body and nothing else. *)
Definition test_scan (body : list Z) : decode_error + json :=
  if bool_decide (body = bytes_of_string DefaultErrorMessage)
  then inr DefaultErrorJSON
  else inl (SyntaxError "invalid character").

(** The error response of [TestWriter]. *)
Definition test_response : Response :=
  mkResponse 401 {[ "X-Log-Requestid"%string := ["123"%string] ]}
    (bytes_of_string DefaultErrorMessage).

(** The same response under the status 2^32 + 401, which a Go [int] of
    64 bits holds. *)
Definition overflow_response : Response :=
  mkResponse (2 ^ 32 + 401) (RespHeader test_response)
    (RespBody test_response).

(** ** Test data *)

(** The writer of [TestWriter]. *)
Definition test_writer : writer :=
  mkWriter "POST" "123" (bytes_of_string "321")
    (mkURL "127.0.0.1:8080" EmptyString EmptyString EmptyString)
    ["127.0.0.1:8080"%string] "test-topic" "127.0.0.1".

(** [ShortMessage]: midnight of 1 January 2020, GMT. *)
Definition ShortMessage : Message :=
  mkMessage (mkTime 1577836800 0) {[ "key"%string := "value"%string ]}.

(** The zero [time.Time], 1 January of the year 1. *)
Definition zero_Time : Time := mkTime (-62135596800) 0.

(** A message whose time was never set. *)
Definition zero_Message : Message := mkMessage zero_Time ∅.

(** The times of the logs of a group. *)
Definition log_times (g : LogGroup) : list (option Z) := LogTime <$> Logs g.

(** An environment whose client answers every request with [resp]. *)
Definition test_env (resp : Response) : Env :=
  mkEnv incompressible (λ _, replicate 16 0) "Wed, 01 Jan 2020 00:00:00 GMT"
    (λ m u body, inr (mkRequest m u ∅ body))
    (λ _, inr resp) test_scan map_to_list map_to_list.

(** ** Further definitions *)

(** [NewWriter(uri, topic, source, accessKey, accessSecret, client)]; the
    client is the [env_Do] of the environment. *)
Definition NewWriter (u : URL) (topic source accessKey : string)
    (accessSecret : list Z) : writer :=
  mkWriter "POST" accessKey accessSecret u [Host u] topic source.

(** The destination [compress] allocates for [data]. *)
Definition buffer (data : list Z) : list Z :=
  replicate (Z.to_nat (CompressBlockBound (len data))) 0.

(** The length of a literal run as an LZ4 reader takes it after a token
    whose nibble is 15: bytes are added up to and including the first
    that is not [0xFF]. *)
Fixpoint read_run_length (acc : Z) (l : list Z) : option (Z * list Z) :=
  match l with
  | [] => None
  | b :: l =>
      if b =? 0xFF then read_run_length (acc + 0xFF) l
      else Some (acc + b, l)
  end.

(** An LZ4 reader on a block that is one literal run: the high nibble of
    the token, the rest of the length, and as many literals, which end
    the block. *)
Definition read_literal_block (l : list Z) : option (list Z) :=
  match l with
  | [] => None
  | token :: l =>
      match (if token / 16 =? 0xF then read_run_length 0xF l
             else Some (token / 16, l)) with
      | Some (n, lits) => if n =? len lits then Some lits else None
      | None => None
      end
  end.

(** The calls of the client in a log. *)
Definition is_Do (e : event) : bool :=
  match e with EvDo _ => true | _ => false end.

Definition count_Do (t : list event) : nat := length (filter is_Do t).

(** The contents of a log as a map from keys to values; a content
    without a key or a value is left out. *)
Definition content_pair (c : Log_Content) : option (string * string) :=
  match Key c, Value c with
  | Some k, Some v => Some (k, v)
  | _, _ => None
  end.

Definition contents_map (lg : Log) : gmap string string :=
  list_to_map (omap content_pair (LogContents lg)).

(** The bytes of the log record of one message in the payload. *)
Definition log_record (range_Contents : gmap string string → list (string * string))
    (m : Message) : list Z :=
  enc_field
    (WBytes 3
       (enc_fields
          (Log_fields
             (mkLog (Some (to_uint32 (Unix (MsgTime m))))
                (contents_of range_Contents m))))).

(** A compressor that fails. *)
Definition failing_compressor (src dst : list Z) : error + (list Z * Z) :=
  inl (ErrLibrary "lz4: invalid source or destination buffer too short").

(** A response that accepts the request. *)
Definition ok_response : Response := mkResponse 200 ∅ [].

(** The endpoint of the test writer, and the writer [NewWriter] makes for
    it. *)
Definition test_uri : URL :=
  mkURL "127.0.0.1:8080" EmptyString EmptyString EmptyString.

(** * Properties *)

(** ** The signature *)

Section SignatureFacts.
Context `{!UnicodeTables}.
Implicit Types (kvs : list (string * list string)) (req : Request).

Lemma sort_Strings_sorted (l : list string) : Sorted String.le (sort_Strings l).
Proof. apply (Sorted_merge_sort String.le). Qed.

Lemma sort_Strings_perm (l : list string) : sort_Strings l ≡ₚ l.
Proof. apply merge_sort_Permutation. Qed.

(** Sorting forgets the order of its input. *)
Lemma sort_Strings_order (l l' : list string) :
  l ≡ₚ l' → sort_Strings l = sort_Strings l'.
Proof.
  intros Hp. apply (Sorted_unique String.le); auto using sort_Strings_sorted.
  by rewrite !sort_Strings_perm.
Qed.

Lemma section_of_line kv :
  section_of kv =
    if vendor_name kv.1 && bool_decide (kv.2 ≠ []) then Some (header_line kv)
    else None.
Proof.
  destruct kv as [k v]. unfold section_of, header_line, vendor_name. simpl.
  destruct v as [|x v].
  - rewrite (bool_decide_eq_false_2 ([] ≠ [])) by naive_solver.
    by rewrite andb_false_r.
  - rewrite (bool_decide_eq_true_2 (x :: v ≠ [])) by done.
    rewrite andb_true_r. by case_bool_decide; simpl in *; [|lia].
Qed.

Lemma sections_in_filter kvs :
  sections_in kvs =
    header_line <$> filter (λ kv, vendor_name kv.1 ∧ kv.2 ≠ []) kvs.
Proof.
  unfold sections_in. induction kvs as [|kv kvs IH]; [done|].
  change (omap section_of (kv :: kvs))
    with (match section_of kv with
          | Some y => y :: omap section_of kvs
          | None => omap section_of kvs
          end).
  rewrite section_of_line, filter_cons, IH.
  destruct (vendor_name kv.1) eqn:Hv; simpl.
  - destruct (decide (True ∧ kv.2 ≠ [])) as [[_ Hne]|Hn].
    + by rewrite bool_decide_eq_true_2.
    + rewrite bool_decide_eq_false_2; [done|]. intros Hne. by apply Hn.
  - done.
Qed.

Lemma signStr_in_order kvs kvs' req :
  kvs ≡ₚ kvs' → signStr_in kvs req = signStr_in kvs' req.
Proof.
  intros Hp. unfold signStr_in.
  by rewrite (sort_Strings_order (sections_in kvs) (sections_in kvs'))
    by (unfold sections_in; by rewrite Hp).
Qed.
End SignatureFacts.

Section SignatureClaims.
Context `{!UnicodeTables}.
Implicit Types (kvs : list (string * list string)) (req : Request).

Lemma prefix_lower_bytes (p k : string) :
  String.prefix p k = true →
  String.prefix (lower_bytes p) (lower_bytes k) = true.
Proof.
  revert k. induction p as [|a p IH]; intros [|b k]; simpl; try done.
  destruct (ascii_dec a b) as [->|]; [|done].
  intros Hp. destruct (ascii_dec (lower_ascii b) (lower_ascii b)); [|done].
  by apply IH.
Qed.

Lemma prefix_Map_ToLower (p k : string) :
  forallb is_ascii (list_ascii_of_string p) = true →
  String.prefix p k = true →
  String.prefix (lower_bytes p) (Map_ToLower k) = true.
Proof.
  revert k. induction p as [|a p IH]; intros k.
  { intros _ _. by destruct (Map_ToLower k). }
  destruct k as [|b k]; [done|]. cbn [list_ascii_of_string forallb].
  intros [Ha Hp]%andb_true_iff. cbn [String.prefix lower_bytes].
  destruct (ascii_dec a b) as [->|]; [|done].
  intros Hk. rewrite Map_ToLower_ascii by done. cbn [String.prefix].
  destruct (ascii_dec (lower_ascii b) (lower_ascii b)); [|done].
  by apply IH.
Qed.

(** A prefix in ASCII is still one, in lower case, after [ToLower]. *)
Lemma HasPrefix_ToLower (k p : string) :
  forallb is_ascii (list_ascii_of_string p) = true →
  HasPrefix k p = true → HasPrefix (ToLower k) (lower_bytes p) = true.
Proof.
  unfold HasPrefix, ToLower. intros Hp Hk.
  destruct (forallb is_ascii (list_ascii_of_string k)).
  - by apply prefix_lower_bytes.
  - by apply prefix_Map_ToLower.
Qed.

Lemma vendor_name_nocase_of (k : string) :
  vendor_name k = true → vendor_name_nocase k = true.
Proof.
  unfold vendor_name, vendor_name_nocase.
  intros [Hk|Hk]%orb_true_iff; apply orb_true_iff; [left|right].
  - by apply (HasPrefix_ToLower k "X-Log-").
  - by apply (HasPrefix_ToLower k "X-Acs-").
Qed.

Lemma filter_iff_on {A} (P1 P2 : A → Prop)
    `{!∀ x, Decision (P1 x), !∀ x, Decision (P2 x)} (l : list A) :
  (∀ x, x ∈ l → P1 x ↔ P2 x) → filter P1 l = filter P2 l.
Proof.
  induction l as [|a l IH]; intros Hiff; [done|].
  rewrite !filter_cons, IH by (intros; apply Hiff; by right).
  pose proof (Hiff a ltac:(by left)) as Ha.
  destruct (decide (P1 a)), (decide (P2 a)); tauto.
Qed.

(** The vendor lines do not depend on other headers. *)
Lemma vendor_entries_perm (h1 h2 : gmap string (list string)) :
  (∀ k, vendor_name k → h1 !! k = h2 !! k) →
  filter (λ kv, vendor_name kv.1 ∧ kv.2 ≠ []) (map_to_list h1)
  ≡ₚ filter (λ kv, vendor_name kv.1 ∧ kv.2 ≠ []) (map_to_list h2).
Proof.
  intros Heq. apply NoDup_Permutation.
  - apply NoDup_filter, NoDup_map_to_list.
  - apply NoDup_filter, NoDup_map_to_list.
  - intros [k v]. rewrite !list_elem_of_filter, !elem_of_map_to_list. simpl.
    split; intros [[Hv Hne] Hl]; (split; [done|]);
      [rewrite <- Heq | rewrite Heq]; done.
Qed.

(** C1, as amended: whatever the order in which the header map is
    walked, the canonical string is the newline-join of the method, the
    first values stored under the canonical keys of Content-MD5,
    Content-Type and Date (empty where there is none), the vendor lines
    and the escaped path, where the vendor lines are sorted ascending and
    are exactly the lines [lowercase-name:trimmed,comma-joined-values] of
    the headers that have at least one value and whose name, as stored,
    starts with [X-Log-] or [X-Acs-].  It is the canonical string of the
    specification whenever every header whose name has a vendor prefix up
    to case has it as spelt and has a value. *)
Theorem signStr_canonical req kvs :
  kvs ≡ₚ map_to_list (ReqHeader req) →
  (∃ lines : list string,
      signStr_in kvs req =
        Join ([Method req;
               Header_Get (ReqHeader req) "Content-MD5";
               Header_Get (ReqHeader req) "Content-Type";
               Header_Get (ReqHeader req) "Date"]
              ++ lines ++ [EscapedPath (ReqURL req)])
             (String "010" EmptyString)
      ∧ Sorted String.le lines
      ∧ lines ≡ₚ header_line <$>
                   filter (λ kv, vendor_name kv.1 ∧ kv.2 ≠ [])
                          (map_to_list (ReqHeader req)))
  ∧ ((∀ k v, ReqHeader req !! k = Some v →
             vendor_name_nocase k → vendor_name k ∧ v ≠ []) →
     signStr_in kvs req = spec_canonical req).
Proof.
  intros Hp. split.
  - exists (sort_Strings (sections_in kvs)). split; [|split].
    + unfold signStr_in. by rewrite <- app_assoc.
    + apply sort_Strings_sorted.
    + rewrite sort_Strings_perm, sections_in_filter. by rewrite Hp.
  - intros Hcanon. rewrite (signStr_in_order _ _ req Hp).
    unfold signStr_in, spec_canonical. rewrite <- app_assoc.
    rewrite sections_in_filter. do 5 f_equal.
    apply filter_iff_on.
    intros [k' v'] Hin%elem_of_map_to_list. simpl. split.
    + intros [Hv _]. apply Is_true_true, vendor_name_nocase_of.
      by apply Is_true_true.
    + intros Hv. destruct (Hcanon k' v' Hin Hv) as [??]. done.
Qed.
End SignatureClaims.

Section SignatureExamples.
#[local] Existing Instance ascii_tables.

Lemma signStr_canonical_witness :
  map_to_list (ReqHeader test_request) ≡ₚ map_to_list (ReqHeader test_request)
  ∧ (∃ lines : list string,
        signStr_in (map_to_list (ReqHeader test_request)) test_request =
          Join ([Method test_request;
                 Header_Get (ReqHeader test_request) "Content-MD5";
                 Header_Get (ReqHeader test_request) "Content-Type";
                 Header_Get (ReqHeader test_request) "Date"]
                ++ lines ++ [EscapedPath (ReqURL test_request)])
               (String "010" EmptyString)
        ∧ Sorted String.le lines
        ∧ lines ≡ₚ header_line <$>
                     filter (λ kv, vendor_name kv.1 ∧ kv.2 ≠ [])
                            (map_to_list (ReqHeader test_request)))
  ∧ (∀ k v, ReqHeader test_request !! k = Some v →
            vendor_name_nocase k → vendor_name k ∧ v ≠ [])
  ∧ signStr_in (map_to_list (ReqHeader test_request)) test_request
    = spec_canonical test_request.
Proof.
  assert (∀ k v, ReqHeader test_request !! k = Some v →
            vendor_name_nocase k → vendor_name k ∧ v ≠ []) as Hc.
  { intros k v Hl%elem_of_map_to_list. vm_compute in Hl.
    repeat (apply elem_of_cons in Hl as [[= -> ->]|Hl]);
      [..|by apply elem_of_nil in Hl];
      vm_compute; try done; intros _; by split. }
  split; [reflexivity|].
  destruct (signStr_canonical test_request
              (map_to_list (ReqHeader test_request)) (reflexivity _))
    as [H1 H2].
  split; [exact H1|]. split; [exact Hc|]. exact (H2 Hc).
Defined.

(** C1, as stated, fails on a header stored under a lower-case name and
    on a vendor header without values: the specification's canonical
    string has a line for [x-log-foo] and one for [X-Log-Bar], the string
    [signature] signs has neither. *)
Lemma signStr_lowercase_header_counterexample :
  signStr lowercase_request
    = "POST" +:+ String "010" (String "010" (String "010" (String "010" "/")))
  ∧ spec_canonical lowercase_request
    = "POST" +:+ String "010" (String "010" (String "010" (String "010"
        ("x-log-bar:" +:+ String "010"
           ("x-log-foo:1" +:+ String "010" "/")))))
  ∧ signStr lowercase_request ≠ spec_canonical lowercase_request.
Proof. vm_compute. by repeat split. Qed.
End SignatureExamples.

Section SignatureVector.
Context `{!UnicodeTables}.
Implicit Types (kvs : list (string * list string)) (req : Request).

(** C2: the request of [TestSignature], signed with the secret [321],
    has the signature [v/969+iSsYwGFtAXAy1xaK9rNDI=], in whatever order
    the header map is walked. *)
Theorem signature_test_vector kvs :
  kvs ≡ₚ map_to_list (ReqHeader test_request) →
  signature_in kvs (bytes_of_string "321") test_request
    = "v/969+iSsYwGFtAXAy1xaK9rNDI="%string.
Proof.
  intros Hp. unfold signature_in. rewrite (signStr_in_order _ _ _ Hp).
  by vm_compute.
Qed.
End SignatureVector.

Section TestVector.
#[local] Existing Instance ascii_tables.

Lemma signature_test_vector_witness :
  map_to_list (ReqHeader test_request) ≡ₚ map_to_list (ReqHeader test_request)
  ∧ signature (bytes_of_string "321") test_request
      = "v/969+iSsYwGFtAXAy1xaK9rNDI="%string.
Proof.
  split; [reflexivity|].
  exact (signature_test_vector (map_to_list (ReqHeader test_request))
           (reflexivity _)).
Defined.
End TestVector.

Section SignatureHeaders.
Context `{!UnicodeTables}.
Implicit Types (kvs : list (string * list string)) (req : Request).

Lemma Header_Get_agree (h1 h2 : gmap string (list string)) (key : string) :
  h1 !! CanonicalMIMEHeaderKey key = h2 !! CanonicalMIMEHeaderKey key →
  Header_Get h1 key = Header_Get h2 key.
Proof. unfold Header_Get. by intros ->. Qed.

(** C9: two requests with the same method and escaped path whose header
    maps agree on Content-MD5, Content-Type, Date and every header with
    a vendor prefix have the same signature, whatever their other
    headers are and in whatever order the maps are walked. *)
Theorem signature_ignores_other_headers
    (secret : list Z) req1 req2 kvs1 kvs2 :
  kvs1 ≡ₚ map_to_list (ReqHeader req1) →
  kvs2 ≡ₚ map_to_list (ReqHeader req2) →
  Method req1 = Method req2 →
  EscapedPath (ReqURL req1) = EscapedPath (ReqURL req2) →
  (∀ k, signed_header k → ReqHeader req1 !! k = ReqHeader req2 !! k) →
  signature_in kvs1 secret req1 = signature_in kvs2 secret req2.
Proof.
  intros Hp1 Hp2 Hm Hu Hh. unfold signature_in. do 3 f_equal.
  unfold signStr_in. rewrite Hm, Hu.
  rewrite !(Header_Get_agree (ReqHeader req1) (ReqHeader req2))
    by (apply Hh; unfold signed_header; auto).
  do 3 f_equal. apply sort_Strings_order.
  rewrite !sections_in_filter, Hp1, Hp2.
  apply fmap_Permutation, vendor_entries_perm.
  intros k Hk. apply Hh. by do 3 right.
Qed.
End SignatureHeaders.

Section OtherHeadersExample.
#[local] Existing Instance ascii_tables.

Lemma signature_ignores_other_headers_witness :
  (∀ k, signed_header k →
        ReqHeader test_request !! k = ReqHeader test_request' !! k)
  ∧ signature_in (map_to_list (ReqHeader test_request))
      (bytes_of_string "321") test_request
    = signature_in (map_to_list (ReqHeader test_request'))
        (bytes_of_string "321") test_request'.
Proof.
  assert (∀ k, signed_header k →
            ReqHeader test_request !! k = ReqHeader test_request' !! k) as H.
  { intros k Hk. unfold test_request'. cbn [ReqHeader].
    rewrite lookup_insert_ne; [rewrite lookup_insert_ne; [done|]|].
    - intros <-. destruct Hk as [Hk|[Hk|[Hk|Hk]]]; by vm_compute in Hk.
    - intros <-. destruct Hk as [Hk|[Hk|[Hk|Hk]]]; by vm_compute in Hk. }
  split; [exact H|].
  exact (signature_ignores_other_headers (bytes_of_string "321")
           test_request test_request'
           (map_to_list (ReqHeader test_request))
           (map_to_list (ReqHeader test_request'))
           (reflexivity _) (reflexivity _) eq_refl eq_refl H).
Defined.
End OtherHeadersExample.

(** ** The response validator *)

Section ValidatorClaims.
Variable json_scan : list Z → decode_error + json.
Implicit Types (resp : Response) (e : AliyunError).

Lemma to_int32_id (x : Z) : - 2 ^ 31 ≤ x < 2 ^ 31 → to_int32 x = x.
Proof. intros Hx. unfold to_int32. rewrite Z.mod_small; lia. Qed.

Lemma set_field_HTTPCode f s e : HTTPCode (set_field f s e) = HTTPCode e.
Proof. by destruct f. Qed.

Lemma set_field_RequestID f s e : RequestID (set_field f s e) = RequestID e.
Proof. by destruct f. Qed.

Lemma unmarshal_member_seed e err kv :
  HTTPCode (unmarshal_member (e, err) kv).1 = HTTPCode e
  ∧ RequestID (unmarshal_member (e, err) kv).1 = RequestID e.
Proof.
  unfold unmarshal_member. destruct (match_field kv.1) as [f|]; [|done].
  destruct kv.2; try done. simpl.
  by rewrite set_field_HTTPCode, set_field_RequestID.
Qed.

(** Storing the members of an object leaves the status and the request
    id alone. *)
Lemma unmarshal_members_seed ms e err :
  HTTPCode (foldl unmarshal_member (e, err) ms).1 = HTTPCode e
  ∧ RequestID (foldl unmarshal_member (e, err) ms).1 = RequestID e.
Proof.
  revert e err. induction ms as [|kv ms IH]; intros e err; [done|].
  cbn [foldl]. destruct (unmarshal_member_seed e err kv) as [H1 H2].
  destruct (unmarshal_member (e, err) kv) as [e' err']. cbn [fst] in *.
  destruct (IH e' err') as [H3 H4]. split; congruence.
Qed.

Lemma get_set_field f g s e :
  get_field f (set_field g s e) = if decide (g = f) then s else get_field f e.
Proof. by destruct f, g. Qed.

Lemma unmarshal_member_field f e err kv :
  get_field f (unmarshal_member (e, err) kv).1
    = match kv.2 with
      | JString s =>
          if decide (match_field kv.1 = Some f) then s else get_field f e
      | _ => get_field f e
      end.
Proof.
  unfold unmarshal_member. destruct kv as [k v]. cbn [fst snd].
  destruct (match_field k) as [g|] eqn:Hk; destruct v; cbn [fst];
    rewrite ?get_set_field; repeat case_decide; congruence.
Qed.

(** The left-to-right stores of [unmarshal] leave in a field the string
    found by searching the object from its end. *)
Lemma unmarshal_members_field f ms e err :
  get_field f (foldl unmarshal_member (e, err) ms).1
    = default (get_field f e) (field_value f ms).
Proof.
  revert e err. induction ms as [|kv ms IH]; intros e err; [done|].
  cbn [foldl field_value].
  pose proof (unmarshal_member_field f e err kv) as Hstep.
  destruct (unmarshal_member (e, err) kv) as [e' err']. cbn [fst] in Hstep.
  rewrite IH. destruct (field_value f ms); [done|]. simpl.
  rewrite Hstep. destruct kv.2; case_bool_decide; try done;
    case_decide; naive_solver.
Qed.

(** C3, as amended: a response with a status below 400 is accepted
    whatever its body; at 400 or above the validator seeds a vendor error
    with the status converted to 32 bits, [int32(resp.StatusCode)], and
    the [X-Log-Requestid] header, and decodes the body into it: when
    decoding fails the decode error is returned, otherwise the vendor
    error is, with its status and request id as seeded, so with the
    status itself when that is below 2^31, and with the strings the body
    stores into [errorCode] and [errorMessage] as its code and
    message. *)
Theorem validateResponse_spec resp :
  (StatusCode resp < StatusBadRequest →
   ∀ body, validateResponse json_scan
             (mkResponse (StatusCode resp) (RespHeader resp) body) = None)
  ∧ (StatusBadRequest ≤ StatusCode resp →
     match json_Decode json_scan (RespBody resp)
             (mkAliyunError (to_int32 (StatusCode resp)) EmptyString
                EmptyString (Header_Get (RespHeader resp) "X-Log-Requestid"))
     with
     | inl err => validateResponse json_scan resp = Some (ErrDecode err)
     | inr e =>
         validateResponse json_scan resp = Some (ErrAliyun e)
         ∧ HTTPCode e = to_int32 (StatusCode resp)
         ∧ (StatusCode resp < 2 ^ 31 → HTTPCode e = StatusCode resp)
         ∧ RequestID e = Header_Get (RespHeader resp) "X-Log-Requestid"
         ∧ ∀ ms, json_scan (RespBody resp) = inr (JObject ms) →
                 Code e = default EmptyString (field_value FieldCode ms)
                 ∧ ErrMessage e
                   = default EmptyString (field_value FieldMessage ms)
     end).
Proof.
  split.
  - intros Hlt body. unfold validateResponse. cbn [StatusCode].
    by rewrite (proj2 (Z.ltb_lt _ _) Hlt).
  - intros Hge. unfold validateResponse.
    rewrite (proj2 (Z.ltb_ge _ _) Hge).
    destruct (json_Decode _ _ _) as [err|e] eqn:Hd; [done|].
    split; [done|]. unfold json_Decode in Hd.
    destruct (json_scan (RespBody resp)) as [|j]; [done|].
    destruct j as [| | | | |ms]; simplify_eq/=.
    + split; [done|]. split; [|split; [done|by intros ms' [=]]].
      intros Hlt. apply to_int32_id. unfold StatusBadRequest in Hge. lia.
    + destruct (foldl unmarshal_member _ ms) as [e' [err|]] eqn:Hf;
        simplify_eq.
      pose proof (unmarshal_members_seed ms
        (mkAliyunError (to_int32 (StatusCode resp)) EmptyString EmptyString
           (Header_Get (RespHeader resp) "X-Log-Requestid")) None) as [H1 H2].
      pose proof (λ f, unmarshal_members_field f ms
        (mkAliyunError (to_int32 (StatusCode resp)) EmptyString EmptyString
           (Header_Get (RespHeader resp) "X-Log-Requestid")) None) as H3.
      rewrite Hf in H1, H2, H3. cbn [fst HTTPCode RequestID] in *.
      split; [done|]. split; [|split; [done|]].
      * intros Hlt. rewrite H1. apply to_int32_id.
        unfold StatusBadRequest in Hge. lia.
      * intros ms' [= <-]. split; [apply (H3 FieldCode)|apply (H3 FieldMessage)].
Qed.

(** C8: when the body of an error response is an object with the two
    members [errorCode] and [errorMessage], both strings, the vendor
    error the validator returns carries them and serializes back to a
    document semantically equal to the body. *)
Theorem error_body_roundtrip resp (c m : string) ms :
  StatusBadRequest ≤ StatusCode resp →
  json_scan (RespBody resp) = inr (JObject ms) →
  ms ≡ₚ [(field_name FieldCode, JString c);
         (field_name FieldMessage, JString m)] →
  ∃ e, validateResponse json_scan resp = Some (ErrAliyun e)
       ∧ Code e = c ∧ ErrMessage e = m
       ∧ json_sem (AliyunError_Error e) = json_sem (JObject ms).
Proof.
  intros Hge Hscan Hp. unfold validateResponse, json_Decode.
  rewrite (proj2 (Z.ltb_ge _ _) Hge), Hscan.
  symmetry in Hp. apply Permutation_length_2_inv in Hp as [->| ->].
  - eexists. split; [reflexivity|]. by repeat split.
  - eexists. split; [reflexivity|]. split; [done|]. split; [done|].
    by vm_compute.
Qed.
End ValidatorClaims.

Lemma validateResponse_spec_witness :
  StatusBadRequest ≤ StatusCode test_response
  ∧ validateResponse test_scan test_response
    = Some (ErrAliyun (mkAliyunError 401 "ParameterInvalid" DefaultErrorText "123")).
Proof.
  assert (StatusBadRequest ≤ StatusCode test_response) as Hge by (by vm_compute).
  split; [exact Hge|].
  exact (proj1 (proj2 (validateResponse_spec test_scan test_response) Hge)).
Defined.

(** C3, as stated, fails on a status that does not fit 32 bits: under
    the status 2^32 + 401 the vendor error carries 401. *)
Lemma validateResponse_status_overflow_counterexample :
  StatusBadRequest ≤ StatusCode overflow_response
  ∧ StatusCode overflow_response = 4294967697
  ∧ validateResponse test_scan overflow_response
    = Some (ErrAliyun
              (mkAliyunError 401 "ParameterInvalid" DefaultErrorText "123"))
  ∧ ¬ (∀ resp e,
         StatusBadRequest ≤ StatusCode resp →
         validateResponse test_scan resp = Some (ErrAliyun e) →
         HTTPCode e = StatusCode resp).
Proof.
  assert (validateResponse test_scan overflow_response
          = Some (ErrAliyun
                    (mkAliyunError 401 "ParameterInvalid" DefaultErrorText
                       "123"))) as Hv by (by vm_compute).
  split; [by vm_compute|]. split; [by vm_compute|]. split; [exact Hv|].
  intros Hall. specialize (Hall overflow_response _ ltac:(by vm_compute) Hv).
  by vm_compute in Hall.
Qed.

Lemma error_body_roundtrip_witness :
  StatusBadRequest ≤ StatusCode test_response
  ∧ ∃ e, validateResponse test_scan test_response = Some (ErrAliyun e)
         ∧ Code e = "ParameterInvalid"%string ∧ ErrMessage e = DefaultErrorText
         ∧ json_sem (AliyunError_Error e) = json_sem DefaultErrorJSON.
Proof.
  assert (StatusBadRequest ≤ StatusCode test_response) as Hge by (by vm_compute).
  split; [exact Hge|].
  exact (error_body_roundtrip test_scan test_response "ParameterInvalid"
           DefaultErrorText _ Hge eq_refl (reflexivity _)).
Defined.

(** ** The compressor *)

Section CopyIncompressible.
Implicit Types (src dst pre suf : list Z).

Lemma len_nonneg {A} (l : list A) : 0 ≤ len l.
Proof. unfold len. lia. Qed.

Lemma len_app {A} (l k : list A) : len (l ++ k) = len l + len k.
Proof. unfold len. rewrite length_app. lia. Qed.

(** A store just after a prefix replaces the first byte of the rest. *)
Lemma store_after pre x suf y :
  store (pre ++ x :: suf) (len pre) y = Some (pre ++ y :: suf).
Proof.
  unfold store. pose proof (len_nonneg pre).
  rewrite len_app. unfold len in *. cbn [length].
  rewrite (proj2 (Z.leb_le _ _)), (proj2 (Z.ltb_lt _ _)) by lia.
  cbn [andb]. f_equal. rewrite Nat2Z.id.
  rewrite insert_app_r_alt, Nat.sub_diag by lia. done.
Qed.

Lemma store_empty x y : store [] x y = None.
Proof.
  unfold store, len. cbn [length].
  destruct (0 <=? x) eqn:H1; [|done].
  by rewrite (proj2 (Z.ltb_ge _ _)) by lia.
Qed.

(** The loop writes one [0xFF] for each 255 in the remaining length,
    and returns early when it reaches the end of the destination. *)
Lemma ff_loop_spec (n : nat) :
  ∀ fuel pre suf r,
    (n ≤ fuel)%nat → 0 ≤ r < 255 → suf ≠ [] →
    ff_loop fuel (pre ++ suf) (len pre) (255 * Z.of_nat n + r)
            (len pre + len suf)
    = if decide (n < length suf)%nat
      then LoopExit (pre ++ replicate n 255 ++ drop n suf)
             (len pre + Z.of_nat n) r
      else LoopReturn (pre ++ replicate (length suf) 255)
             (len pre + len suf).
Proof.
  induction n as [|n IH]; intros fuel pre suf r Hf Hr Hs.
  - destruct suf as [|x suf]; [done|].
    rewrite decide_True by (cbn; lia).
    replace (255 * Z.of_nat 0 + r) with r by lia.
    replace (len pre + Z.of_nat 0) with (len pre) by lia.
    destruct fuel; cbn [ff_loop];
      by rewrite (proj2 (Z.leb_gt _ _)) by lia.
  - destruct fuel as [|fuel]; [lia|]. destruct suf as [|x suf]; [done|].
    cbn [ff_loop]. rewrite (proj2 (Z.leb_le _ _)) by lia.
    rewrite store_after.
    destruct suf as [|x' suf].
    + rewrite decide_False by (cbn; lia).
      unfold len. cbn [length replicate].
      by rewrite Z.eqb_refl.
    + rewrite (proj2 (Z.eqb_neq _ _))
        by (unfold len; cbn [length]; lia).
      replace (pre ++ 255 :: x' :: suf)
        with ((pre ++ [255]) ++ x' :: suf) by (by rewrite <- app_assoc).
      replace (len pre + 1) with (len (pre ++ [255]))
        by (rewrite len_app; done).
      replace (255 * Z.of_nat (S n) + r - 255) with (255 * Z.of_nat n + r)
        by lia.
      replace (len pre + len (x :: x' :: suf))
        with (len (pre ++ [255]) + len (x' :: suf))
        by (rewrite len_app; unfold len; cbn [length]; lia).
      rewrite IH by (done || lia).
      cbn [length]. destruct (decide (n < S (length suf))%nat).
      * rewrite decide_True by lia. rewrite <- app_assoc.
        cbn [replicate drop app].
        f_equal; rewrite ?len_app; unfold len; cbn [length]; lia.
      * rewrite decide_False by lia. rewrite <- app_assoc.
        cbn [replicate app].
        f_equal; rewrite ?len_app; unfold len; cbn [length]; lia.
Qed.

Lemma copy_literals_spec src pre suf :
  copy_literals src (pre ++ suf) (len pre - 1) (len pre + len suf)
  = if decide (length src ≤ length suf)%nat
    then Done (pre ++ src ++ drop (length src) suf, len pre + len src)
    else Done (pre ++ suf, len pre).
Proof.
  unfold copy_literals.
  replace (len pre - 1 + 1) with (len pre) by lia.
  destruct (decide (length src ≤ length suf)%nat) as [Hle|Hgt].
  - rewrite (proj2 (Z.ltb_ge _ _)) by (unfold len; lia).
    unfold copy_at. rewrite len_app.
    replace (Z.min (len pre + len suf - len pre) (len src)) with (len src)
      by (unfold len; lia).
    unfold len. rewrite <- Nat2Z.inj_add, !Nat2Z.id.
    rewrite take_app_length, firstn_all, drop_app_add. done.
  - by rewrite (proj2 (Z.ltb_lt _ _)) by (unfold len; lia).
Qed.

Lemma literal_header_length (l : Z) :
  0 ≤ l →
  length (literal_header l)
  = if l <? 0xF then 1%nat else (Z.to_nat ((l - 0xF) / 0xFF) + 2)%nat.
Proof.
  intros Hl. unfold literal_header. destruct (l <? 0xF); [done|].
  rewrite !length_app, length_replicate. cbn [length]. lia.
Qed.

(** Short inputs: a token with the length in its high nibble. *)
Lemma copyIncompressible_short src x dst :
  len src < 0xF →
  copyIncompressible src (x :: dst)
  = Done (take (literal_count src (x :: dst)) (literal_block src)
            ++ drop (literal_count src (x :: dst)) (x :: dst),
          Z.of_nat (literal_count src (x :: dst))).
Proof.
  intros Hs. pose proof (len_nonneg src) as H0.
  unfold copyIncompressible, literal_count, literal_block, literal_header.
  rewrite (proj2 (Z.ltb_lt _ _)) by done.
  rewrite (store_after [] x dst). cbn [app].
  replace (to_byte (Z.shiftl (len src) 4)) with (len src * 16)
    by (unfold to_byte; rewrite Z.shiftl_mul_pow2, Z.mod_small; lia).
  pose proof (copy_literals_spec src [len src * 16] dst) as Hc.
  replace (len [len src * 16] - 1) with 0 in Hc by done.
  replace (len [len src * 16] + len dst) with (len (x :: dst)) in Hc
    by (unfold len; cbn [length]; lia).
  cbn [app] in Hc. rewrite Hc. cbn [length app].
  destruct (decide (length src ≤ length dst)%nat).
  - rewrite decide_True by lia. cbn [take drop].
    rewrite firstn_all. f_equal. f_equal. unfold len. cbn [length]. lia.
  - rewrite decide_False by lia.
    replace (S (length dst) `min` 1)%nat with 1%nat by lia.
    done.
Qed.

(** Long inputs: the token [0xF0], the continuation bytes and the
    remainder, cut short where the destination ends. *)
Lemma copyIncompressible_long src x dst :
  0xF ≤ len src →
  copyIncompressible src (x :: dst)
  = Done (take (literal_count src (x :: dst)) (literal_block src)
            ++ drop (literal_count src (x :: dst)) (x :: dst),
          Z.of_nat (literal_count src (x :: dst))).
Proof.
  intros Hs.
  set (q := Z.to_nat ((len src - 0xF) / 0xFF)).
  set (r := (len src - 0xF) mod 0xFF).
  assert (len src - 0xF = 255 * Z.of_nat q + r) as Hqr.
  { unfold q, r. rewrite Z2Nat.id by (apply Z.div_pos; lia).
    apply Z.div_mod. lia. }
  assert (0 ≤ r < 255) as Hr by (apply Z.mod_pos_bound; lia).
  assert (literal_header (len src) = [0xF0] ++ replicate q 0xFF ++ [r]) as HH.
  { unfold literal_header. by rewrite (proj2 (Z.ltb_ge _ _)) by done. }
  assert (length (literal_header (len src)) = (q + 2)%nat) as HHl.
  { rewrite HH, !length_app, length_replicate. cbn [length]. lia. }
  assert (len (literal_header (len src)) = Z.of_nat q + 2) as HHz.
  { unfold len at 1. rewrite HHl. lia. }
  clearbody q r.
  unfold copyIncompressible, literal_count, literal_block.
  rewrite (proj2 (Z.ltb_ge _ _)) by done.
  rewrite (store_after [] x dst). cbn [app].
  rewrite length_app, HHl. cbn [length].
  destruct dst as [|y dst].
  { (* no room after the token *)
    replace (0 + 1 =? len [x]) with true by done.
    rewrite decide_False by (cbn [length]; lia).
    cbn [length]. replace (1 `min` (q + 2))%nat with 1%nat by lia.
    by rewrite HH. }
  rewrite (proj2 (Z.eqb_neq _ _)) by (unfold len; cbn [length]; lia).
  rewrite Hqr at 2.
  pose proof (ff_loop_spec q (Z.to_nat (len src - 0xF)) [0xF0] (y :: dst) r)
    as Hloop.
  replace (len [0xF0]) with (0 + 1) in Hloop by done.
  replace (0 + 1 + len (y :: dst)) with (len (x :: y :: dst)) in Hloop
    by (unfold len; cbn [length]; lia).
  cbn [app] in Hloop. rewrite Hloop by (done || lia). clear Hloop.
  destruct (decide (q < length (y :: dst))%nat) as [Hq|Hq].
  - (* the whole header fits *)
    destruct (drop q (y :: dst)) as [|z suf] eqn:Hd.
    { apply (f_equal length) in Hd. rewrite length_drop in Hd.
      cbn [length] in *. lia. }
    assert (length suf = (length dst - q)%nat) as Hsuf.
    { apply (f_equal length) in Hd. rewrite length_drop in Hd.
      cbn [length] in *. lia. }
    assert (drop (q + 2) (x :: y :: dst) = suf) as Hdrop.
    { replace (q + 2)%nat with (S (q + 1)) by lia.
      change (drop (S (q + 1)) (x :: y :: dst))
        with (drop (q + 1) (y :: dst)).
      by rewrite <- drop_drop, Hd. }
    change (0xF0 :: replicate q 0xFF ++ z :: suf)
      with (([0xF0] ++ replicate q 0xFF) ++ z :: suf).
    replace (0 + 1 + Z.of_nat q) with (len ([0xF0] ++ replicate q 0xFF))
      by (rewrite len_app; unfold len; rewrite length_replicate;
          cbn [length]; lia).
    rewrite store_after.
    replace (to_byte r) with r by (unfold to_byte; rewrite Z.mod_small; lia).
    replace (([0xF0] ++ replicate q 0xFF) ++ r :: suf)
      with (literal_header (len src) ++ suf)
      by (rewrite HH, <- !app_assoc; done).
    pose proof (copy_literals_spec src (literal_header (len src)) suf) as Hc.
    replace (len (literal_header (len src)) - 1)
      with (len ([0xF0] ++ replicate q 0xFF)) in Hc
      by (rewrite HHz, len_app; unfold len; rewrite length_replicate;
          cbn [length]; lia).
    replace (len (literal_header (len src)) + len suf)
      with (len (x :: y :: dst)) in Hc
      by (rewrite HHz; unfold len; rewrite Hsuf; cbn [length] in *; lia).
    rewrite Hc. clear Hc. cbn [length] in *.
    destruct (decide (length src ≤ length suf)%nat).
    + rewrite decide_True by lia.
      assert (take (q + 2 + length src) (literal_header (len src) ++ src)
              = literal_header (len src) ++ src) as ->.
      { apply take_ge. rewrite length_app. lia. }
      rewrite <- drop_drop, Hdrop, <- app_assoc. f_equal. f_equal.
      rewrite HHz. unfold len. lia.
    + rewrite decide_False by lia.
      replace (S (S (length dst)) `min` (q + 2))%nat with (q + 2)%nat by lia.
      assert (take (q + 2) (literal_header (len src) ++ src)
              = literal_header (len src)) as ->.
      { rewrite <- HHl. apply take_app_length. }
      rewrite Hdrop. f_equal. f_equal. rewrite HHz. lia.
  - (* the destination ends within the header *)
    rewrite decide_False by (cbn [length] in *; lia).
    replace (S (length (y :: dst)) `min` (q + 2))%nat
      with (S (length (y :: dst))) by (cbn [length] in *; lia).
    rewrite HH. cbn [take app].
    change (drop (S (length (y :: dst))) (x :: y :: dst))
      with (drop (length (y :: dst)) (y :: dst)).
    rewrite drop_all, app_nil_r.
    rewrite <- app_assoc, take_app_le by (rewrite length_replicate; lia).
    rewrite take_replicate.
    replace (length (y :: dst) `min` q)%nat with (length (y :: dst)) by lia.
    f_equal.
Qed.

(** [copyIncompressible] on a destination with room for a byte: no
    error on any path; the count returned is the number of bytes
    written, which are the start of the literal-only block, and the
    rest of the destination is untouched. *)
Lemma copyIncompressible_spec src dst :
  dst ≠ [] →
  copyIncompressible src dst
  = Done (take (literal_count src dst) (literal_block src)
            ++ drop (literal_count src dst) dst,
          Z.of_nat (literal_count src dst)).
Proof.
  destruct dst as [|x dst]; [done|]. intros _.
  destruct (Z.lt_ge_cases (len src) 0xF).
  - by apply copyIncompressible_short.
  - by apply copyIncompressible_long.
Qed.
End CopyIncompressible.

Section CompressorClaims.
Variable CompressBlock : list Z → list Z → error + (list Z * Z).
Implicit Types (data src dst out : list Z).

Lemma overwrite_length dst written :
  length (overwrite dst written) = length dst.
Proof.
  unfold overwrite. rewrite length_take, length_app, length_drop. lia.
Qed.

Lemma slice_to_Done out n r :
  slice_to out n = Done r →
  0 ≤ n ≤ len out ∧ r = take (Z.to_nat n) out.
Proof.
  unfold slice_to. destruct (0 <=? n) eqn:H0; [|done].
  destruct (n <=? len out) eqn:H1; [|done]. intros [= <-]. split; [lia|done].
Qed.

Lemma literal_block_length src :
  len (literal_block src) ≤ CompressBlockBound (len src)
  ∧ len (literal_block src) = len (literal_header (len src)) + len src.
Proof.
  pose proof (len_nonneg src) as H0. unfold literal_block.
  rewrite len_app. split; [|done].
  unfold len at 1. rewrite literal_header_length by done.
  assert (0 ≤ len src `div` 255) by (apply Z.div_pos; lia).
  unfold CompressBlockBound. destruct (len src <? 0xF) eqn:Hs; [lia|].
  apply Z.ltb_ge in Hs. rewrite Nat2Z.inj_add, Z2Nat.id
    by (apply Z.div_pos; lia).
  assert ((len src - 15) `div` 255 ≤ len src `div` 255)
    by (apply Z.div_le_mono; lia).
  lia.
Qed.

Lemma literal_count_le src dst :
  (literal_count src dst ≤ length dst)%nat
  ∧ (literal_count src dst ≤ length (literal_block src))%nat.
Proof.
  unfold literal_count, literal_block. rewrite length_app.
  case_decide; lia.
Qed.

Lemma bound_buffer data :
  len (replicate (Z.to_nat (CompressBlockBound (len data))) 0)
  = CompressBlockBound (len data)
  ∧ 16 ≤ CompressBlockBound (len data).
Proof.
  pose proof (len_nonneg data). unfold len at 1.
  rewrite length_replicate. unfold CompressBlockBound.
  assert (0 ≤ len data `div` 255) by (apply Z.div_pos; lia). lia.
Qed.

(** C4: whenever [compress] returns bytes, on the block-compression path
    or on the literal fallback, there are at most [L + L/255 + 16] of
    them, [L] being the length of the input. *)
Theorem compress_bound data out :
  compress CompressBlock data = Done out →
  len out ≤ len data + len data / 255 + 16.
Proof.
  unfold compress.
  destruct (bound_buffer data) as [Hb Hb16].
  set (buf := replicate (Z.to_nat (CompressBlockBound (len data))) 0) in *.
  destruct (CompressBlock data buf) as [err|[written n]]; [done|].
  assert (len (overwrite buf written) = CompressBlockBound (len data)) as Ho.
  { unfold len. rewrite overwrite_length. apply Hb. }
  assert (∀ o m, len o = CompressBlockBound (len data) →
                 slice_to o m = Done out →
                 len out ≤ len data + len data / 255 + 16) as Hslice.
  { intros o m Hlen [Hm ->]%slice_to_Done. unfold CompressBlockBound in *.
    unfold len in *. rewrite length_take. lia. }
  assert (overwrite buf written ≠ []) as Hne.
  { intros Hnil. rewrite Hnil in Ho. change (len (@nil Z)) with 0 in Ho. lia. }
  destruct (n =? 0).
  - rewrite copyIncompressible_spec by done.
    apply Hslice.
    destruct (literal_count_le data (overwrite buf written)).
    unfold len in *. rewrite length_app, length_take, length_drop. lia.
  - by apply Hslice.
Qed.

(** C5: when the block compressor reports zero bytes, [compress] returns
    the literal-only block of its input, with no error; the block is a
    token with the length in its high nibble for lengths up to 14, or
    [0xF0], a run of [0xFF] bytes and a remainder byte for longer ones,
    followed by the input; and [copyIncompressible], on any destination
    with room for a byte, returns no error and the count of bytes it
    wrote, which are the start of that block. *)
Theorem compress_fallback_literal_block :
  (∀ data written,
      CompressBlock data
        (replicate (Z.to_nat (CompressBlockBound (len data))) 0)
      = inr (written, 0) →
      compress CompressBlock data = Done (literal_block data))
  ∧ (∀ src,
        literal_block src = literal_header (len src) ++ src
        ∧ (len src < 0xF → literal_header (len src) = [len src * 16])
        ∧ (0xF ≤ len src →
           ∃ (k : nat) (r : Z),
             literal_header (len src) = [0xF0] ++ replicate k 0xFF ++ [r]
             ∧ 0 ≤ r < 0xFF ∧ len src = 0xF + 0xFF * Z.of_nat k + r))
  ∧ (∀ src dst,
        dst ≠ [] →
        ∃ n : nat,
          copyIncompressible src dst
          = Done (take n (literal_block src) ++ drop n dst, Z.of_nat n)
          ∧ (n ≤ length dst)%nat
          ∧ ((length (literal_block src) ≤ length dst)%nat →
             n = length (literal_block src))).
Proof.
  split; [|split].
  - intros data written Hcb. unfold compress. rewrite Hcb.
    destruct (bound_buffer data) as [Hb Hb16].
    set (buf := replicate (Z.to_nat (CompressBlockBound (len data))) 0) in *.
    assert (length (overwrite buf written)
            = Z.to_nat (CompressBlockBound (len data))) as Ho.
    { rewrite overwrite_length. rewrite <- Hb. unfold len. lia. }
    assert (overwrite buf written ≠ []) as Hne.
    { intros Hnil. rewrite Hnil in Ho. cbn [length] in Ho. lia. }
    cbn [Z.eqb]. rewrite copyIncompressible_spec by done.
    destruct (literal_block_length data) as [Hle _].
    assert (literal_count data (overwrite buf written)
            = length (literal_block data)) as ->.
    { unfold literal_count. rewrite decide_True; [done|].
      rewrite Ho. unfold len at 1 in Hle. lia. }
    rewrite firstn_all. unfold slice_to.
    rewrite (proj2 (Z.leb_le _ _)) by lia.
    rewrite (proj2 (Z.leb_le _ _))
      by (unfold len; rewrite length_app; lia).
    cbn [andb]. by rewrite Nat2Z.id, take_app_length.
  - intros src. split; [done|]. split.
    + intros Hs. unfold literal_header.
      by rewrite (proj2 (Z.ltb_lt _ _)).
    + intros Hs. exists (Z.to_nat ((len src - 0xF) / 0xFF)),
        ((len src - 0xF) mod 0xFF).
      split; [|split].
      * unfold literal_header. by rewrite (proj2 (Z.ltb_ge _ _)).
      * apply Z.mod_pos_bound. lia.
      * rewrite Z2Nat.id by (apply Z.div_pos; lia).
        pose proof (Z.div_mod (len src - 0xF) 0xFF). lia.
  - intros src dst Hne. exists (literal_count src dst).
    split; [by apply copyIncompressible_spec|].
    split; [apply literal_count_le|].
    intros Hfit. unfold literal_count. by rewrite decide_True.
Qed.
End CompressorClaims.

Lemma compress_bound_witness :
  compress incompressible [1; 2; 3] = Done [48; 1; 2; 3]
  ∧ len [48; 1; 2; 3] ≤ len [1; 2; 3] + len [1; 2; 3] / 255 + 16.
Proof.
  split; [reflexivity|].
  exact (compress_bound incompressible [1; 2; 3] [48; 1; 2; 3] eq_refl).
Defined.

Lemma compress_fallback_literal_block_witness :
  incompressible [1; 2; 3] (replicate (Z.to_nat (CompressBlockBound 3)) 0)
    = inr ([], 0)
  ∧ compress incompressible [1; 2; 3] = Done [48; 1; 2; 3].
Proof.
  split; [reflexivity|].
  exact (proj1 (compress_fallback_literal_block incompressible)
           [1; 2; 3] [] eq_refl).
Defined.

(** ** The binary payload *)

Section WireFormat.
Implicit Types (l r b : list Z) (fs : list wire_field).

Lemma string_of_bytes_of_string (s : string) :
  string_of_bytes (bytes_of_string s) = s.
Proof.
  unfold string_of_bytes, bytes_of_string.
  rewrite <- list_fmap_compose.
  rewrite <- (string_of_list_ascii_of_string s) at 2. f_equal.
  induction (list_ascii_of_string s) as [|a l IH]; [done|].
  cbn [fmap list_fmap compose]. f_equal; [|apply IH].
  pose proof (N_ascii_bounded a).
  rewrite Z.mod_small by lia. by rewrite N2Z.id, ascii_N_embedding.
Qed.

Lemma read_varint_go (fuel : nat) :
  ∀ n r, 0 ≤ n < 128 ^ Z.of_nat (S fuel) →
         read_varint (varint_go fuel n ++ r) = Some (n, r).
Proof.
  induction fuel as [|fuel IH]; intros n r Hn.
  - cbn [varint_go app read_varint]. change (128 ^ Z.of_nat 1) with 128 in Hn.
    rewrite Z.mod_small by lia. by rewrite (proj2 (Z.ltb_lt _ _)) by lia.
  - cbn [varint_go]. destruct (n <? 128) eqn:Hlt.
    + cbn [app read_varint]. by rewrite Hlt.
    + apply Z.ltb_ge in Hlt. cbn [app read_varint].
      pose proof (Z.mod_pos_bound n 128 ltac:(lia)).
      rewrite (proj2 (Z.ltb_ge _ _)) by lia.
      rewrite IH.
      * f_equal. f_equal. pose proof (Z.div_mod n 128). lia.
      * split; [apply Z.div_pos; lia|].
        apply Z.div_lt_upper_bound; [lia|].
        rewrite (Nat2Z.inj_succ (S fuel)), Z.pow_succ_r in Hn by lia. lia.
Qed.

Lemma read_varint_varint n r :
  0 ≤ n → read_varint (varint n ++ r) = Some (n, r).
Proof.
  intros Hn. apply read_varint_go. split; [done|].
  destruct (decide (n = 0)) as [->|Hne]; [by cbn|].
  rewrite Nat2Z.inj_succ, Z2Nat.id by apply Z.log2_nonneg.
  pose proof (Z.log2_spec n ltac:(lia)) as [_ Hlt].
  eapply Z.lt_le_trans; [exact Hlt|].
  apply Z.pow_le_mono_l. lia.
Qed.

Lemma varint_nonempty n : varint n ≠ [].
Proof. unfold varint. destruct (Z.to_nat _); cbn; [done|]. by case_match. Qed.

Lemma read_field_enc f r :
  valid_field f → read_field (enc_field f ++ r) = Some (f, r).
Proof.
  destruct f as [tag v|tag b]; cbn [valid_field enc_field]; intros Hv;
    unfold read_field; rewrite <- !app_assoc, read_varint_varint by lia.
  - replace ((tag * 8 + 0) `mod` 8) with 0
      by (rewrite Z.add_0_r, Z.mod_mul; lia).
    cbn [Z.eqb]. rewrite read_varint_varint by lia.
    by rewrite Z.add_0_r, Z.div_mul by lia.
  - replace ((tag * 8 + 2) `mod` 8) with 2
      by (rewrite Z.add_comm, Z.mod_add; done).
    cbn [Z.eqb]. rewrite read_varint_varint by apply len_nonneg.
    rewrite (proj2 (Z.leb_le _ _)) by (rewrite len_app; pose proof (len_nonneg r); lia).
    unfold len. rewrite Nat2Z.id, take_app_length, drop_app_length.
    replace ((tag * 8 + 2) `div` 8) with tag; [done|].
    rewrite Z.add_comm, Z.div_add by lia. done.
Qed.

Lemma enc_field_nonempty f r : enc_field f ++ r ≠ [].
Proof.
  destruct f as [tag v|tag b]; cbn [enc_field];
    [pose proof (varint_nonempty (tag * 8 + 0))
    |pose proof (varint_nonempty (tag * 8 + 2))];
    destruct (varint _); done.
Qed.

Lemma read_fields_enc fs :
  ∀ fuel, Forall valid_field fs → (length (enc_fields fs) ≤ fuel)%nat →
          read_fields fuel (enc_fields fs) = Some fs.
Proof.
  induction fs as [|f fs IH]; intros fuel Hv Hf.
  - by destruct fuel.
  - apply Forall_cons in Hv as [Hf1 Hv].
    change (enc_fields (f :: fs)) with (enc_field f ++ enc_fields fs) in *.
    pose proof (enc_field_nonempty f (enc_fields fs)) as Hne.
    pose proof (read_field_enc f (enc_fields fs) Hf1) as Hr.
    rewrite length_app in Hf.
    assert (0 < length (enc_field f))%nat.
    { pose proof (enc_field_nonempty f []) as Hn. rewrite app_nil_r in Hn.
      destruct (enc_field f); [done|cbn; lia]. }
    destruct (enc_field f ++ enc_fields fs) as [|x l] eqn:Heq; [done|].
    destruct fuel as [|fuel]; [lia|]. cbn [read_fields].
    rewrite Hr, IH by (done || lia). done.
Qed.

Lemma parse_fields_enc fs :
  Forall valid_field fs → parse_fields (enc_fields fs) = Some fs.
Proof. intros Hv. by apply read_fields_enc. Qed.

Lemma Content_fields_valid c : Forall valid_field (Content_fields c).
Proof.
  destruct c as [[k|] [v|]]; unfold Content_fields; cbn;
    repeat constructor; done.
Qed.

Lemma Content_roundtrip c : Content_of (Content_fields c) = c.
Proof.
  destruct c as [[k|] [v|]]; cbn;
    by rewrite ?string_of_bytes_of_string.
Qed.

Lemma Log_contents_roundtrip cs :
  ∀ t acc,
    foldl Log_step (Some (mkLog t acc))
      ((λ c, WBytes 2 (enc_fields (Content_fields c))) <$> cs)
    = Some (mkLog t (acc ++ cs)).
Proof.
  induction cs as [|c cs IH]; intros t acc.
  - by rewrite app_nil_r.
  - cbn [fmap list_fmap foldl Log_step LogTime LogContents].
    rewrite parse_fields_enc by apply Content_fields_valid.
    rewrite Content_roundtrip, IH. by rewrite <- app_assoc.
Qed.

Lemma Log_fields_valid lg :
  (∀ t, LogTime lg = Some t → 0 ≤ t) → Forall valid_field (Log_fields lg).
Proof.
  intros Ht. unfold Log_fields. apply Forall_app. split.
  - destruct (LogTime lg) as [t|]; cbn; repeat constructor; auto; lia.
  - apply Forall_fmap, Forall_forall. intros c _. cbn. lia.
Qed.

Lemma Log_roundtrip lg :
  (∀ t, LogTime lg = Some t → 0 ≤ t < 2 ^ 32) →
  Log_of (Log_fields lg) = Some lg.
Proof.
  intros Ht. unfold Log_of, Log_fields. rewrite foldl_app.
  destruct lg as [[t|] cs]; cbn [LogTime LogContents opt_field foldl Log_step] in *.
  - rewrite Z.mod_small by auto. by rewrite Log_contents_roundtrip.
  - by rewrite Log_contents_roundtrip.
Qed.

Lemma LogGroup_logs_roundtrip ls :
  ∀ tp sr acc,
    Forall (λ lg, ∀ t, LogTime lg = Some t → 0 ≤ t < 2 ^ 32) ls →
    foldl LogGroup_step (Some (mkLogGroup tp sr acc))
      ((λ lg, WBytes 3 (enc_fields (Log_fields lg))) <$> ls)
    = Some (mkLogGroup tp sr (acc ++ ls)).
Proof.
  induction ls as [|lg ls IH]; intros tp sr acc Hls.
  - by rewrite app_nil_r.
  - apply Forall_cons in Hls as [Hlg Hls].
    cbn [fmap list_fmap foldl LogGroup_step Topic Source Logs].
    rewrite parse_fields_enc
      by (apply Log_fields_valid; intros t Ht; apply Hlg in Ht; lia).
    cbn [mbind option_bind]. rewrite Log_roundtrip by done.
    rewrite IH by done. by rewrite <- app_assoc.
Qed.

Lemma LogGroup_fields_valid g : Forall valid_field (LogGroup_fields g).
Proof.
  unfold LogGroup_fields. rewrite !Forall_app. split; [|split].
  - destruct (Topic g); cbn; repeat constructor; done.
  - destruct (Source g); cbn; repeat constructor; done.
  - apply Forall_fmap, Forall_forall. intros c _. cbn. lia.
Qed.

(** What [proto.Marshal] writes, [proto.Unmarshal] reads back. *)
Lemma Unmarshal_Marshal g :
  Forall (λ lg, ∀ t, LogTime lg = Some t → 0 ≤ t < 2 ^ 32) (Logs g) →
  Unmarshal (Marshal g) = Some g.
Proof.
  intros Hls. unfold Unmarshal, Marshal.
  rewrite parse_fields_enc by apply LogGroup_fields_valid.
  cbn [mbind option_bind]. unfold LogGroup_of, LogGroup_fields.
  rewrite !foldl_app.
  destruct g as [[tp|] [sr|] ls];
    cbn [Topic Source Logs opt_field foldl LogGroup_step] in *;
    rewrite ?string_of_bytes_of_string;
    by rewrite LogGroup_logs_roundtrip.
Qed.
End WireFormat.

(** ** The encoder *)

Section EncoderClaims.
Variable range_Contents : gmap string string → list (string * string).
Implicit Types (w : writer) (messages : list Message) (m : Message).

Lemma to_uint32_range (x : Z) : 0 ≤ to_uint32 x < 2 ^ 32.
Proof. unfold to_uint32. apply Z.mod_pos_bound. lia. Qed.

(** The payload of [encode] decodes to the group [encode] built. *)
Lemma encode_decodes w messages :
  Unmarshal (encode range_Contents w messages)
  = Some (group_of range_Contents w messages).
Proof.
  unfold encode. apply Unmarshal_Marshal.
  cbn [group_of Logs]. apply Forall_fmap, Forall_forall.
  intros m _ t [= <-]. apply to_uint32_range.
Qed.

(** C6, as amended: the payload of [encode] decodes to a group with the
    configured topic and source and one log for each message, in the
    order of the messages, the time of each log being the Unix seconds
    of its message reduced modulo 2^32, which are the Unix seconds
    themselves when they lie in [0, 2^32). *)
Theorem encode_decode_group w messages :
  ∃ g, Unmarshal (encode range_Contents w messages) = Some g
       ∧ Topic g = Some (topic w)
       ∧ Source g = Some (source w)
       ∧ length (Logs g) = length messages
       ∧ ∀ (i : nat) m,
           messages !! i = Some m →
           ∃ lg, Logs g !! i = Some lg
                 ∧ LogTime lg = Some (Unix (MsgTime m) mod 2 ^ 32)
                 ∧ (0 ≤ Unix (MsgTime m) < 2 ^ 32 →
                    LogTime lg = Some (Unix (MsgTime m))).
Proof.
  exists (group_of range_Contents w messages).
  split; [apply encode_decodes|]. split; [done|]. split; [done|].
  cbn [group_of Logs]. split; [by rewrite length_fmap|].
  intros i m Hm. rewrite list_lookup_fmap, Hm. eexists. split; [done|].
  cbn [LogTime]. split; [done|].
  intros Hr. unfold to_uint32. by rewrite Z.mod_small.
Qed.


End EncoderClaims.

(** C6, as stated, fails on a message whose time was never set: the log
    carries 2288912640 where the Unix seconds are -62135596800. *)
Lemma encode_zero_time_counterexample :
  log_times <$> Unmarshal (encode map_to_list test_writer [zero_Message])
    = Some [Some 2288912640]
  ∧ Unix (MsgTime zero_Message) = -62135596800
  ∧ log_times <$> Unmarshal (encode map_to_list test_writer [zero_Message])
    ≠ Some [Some (Unix (MsgTime zero_Message))].
Proof. vm_compute. by repeat split. Qed.

Lemma encode_decode_group_witness :
  [ShortMessage] !! 0%nat = Some ShortMessage
  ∧ ∃ g, Unmarshal (encode map_to_list test_writer [ShortMessage]) = Some g
         ∧ Topic g = Some (topic test_writer)
         ∧ Source g = Some (source test_writer)
         ∧ length (Logs g) = length [ShortMessage]
         ∧ ∀ (i : nat) m,
             [ShortMessage] !! i = Some m →
             ∃ lg, Logs g !! i = Some lg
                   ∧ LogTime lg = Some (Unix (MsgTime m) mod 2 ^ 32)
                   ∧ (0 ≤ Unix (MsgTime m) < 2 ^ 32 →
                      LogTime lg = Some (Unix (MsgTime m))).
Proof.
  split; [reflexivity|].
  exact (encode_decode_group map_to_list test_writer [ShortMessage]).
Defined.


(** ** The pipeline *)

Section WriterClaims.
Context `{!UnicodeTables}.
Variable X : Env.

Lemma extends_ret {A} (a : A) : extends (ret a).
Proof. intros t. exists []. by rewrite app_nil_r. Qed.

Lemma extends_lift {A} (o : outcome A) : extends (lift o).
Proof. intros t. exists []. by rewrite app_nil_r. Qed.

Lemma extends_emit (e : event) : extends (emit e).
Proof. intros t. by exists [e]. Qed.

Lemma extends_bind {A B} (c : M A) (k : A → M B) :
  extends c → (∀ a, extends (k a)) → extends (bind c k).
Proof.
  intros Hc Hk t. unfold bind. destruct (Hc t) as [t1 H1].
  destruct (c t) as [[a|e| |] t'] eqn:Hct; cbn [snd] in *; subst t'.
  - destruct (Hk a (t ++ t1)) as [t2 H2]. exists (t1 ++ t2).
    by rewrite H2, app_assoc.
  - by exists t1.
  - by exists t1.
  - by exists t1.
Qed.

Lemma extends_w_compress raw : extends (w_compress X raw).
Proof.
  unfold w_compress. apply extends_bind; [apply extends_emit|].
  intros _. apply extends_lift.
Qed.

Lemma extends_buildRequest w raw data : extends (buildRequest X w raw data).
Proof.
  unfold buildRequest. apply extends_bind; [apply extends_emit|]. intros _.
  apply extends_bind; [apply extends_lift|]. intros req. apply extends_ret.
Qed.

Lemma extends_fire req : extends (fire X req).
Proof.
  unfold fire. apply extends_bind; [apply extends_emit|]. intros _.
  apply extends_bind; [apply extends_lift|]. intros resp.
  apply extends_bind; [apply extends_emit|]. intros _.
  destruct (validateResponse _ _); [apply extends_lift|apply extends_ret].
Qed.

(** C7: [WriteMessage] with no message returns no error and makes no
    call: nothing is encoded, compressed, built or sent, the log of
    calls being left as it was; with a message the log does grow, first
    by the call of the encoder. *)
Theorem WriteMessage_empty (w : writer) (t : list event) :
  WriteMessage X w [] t = (Done tt, t)
  ∧ ∀ m ms, ∃ t', (WriteMessage X w (m :: ms) t).2
                  = t ++ EvEncode (m :: ms) :: t'.
Proof.
  split; [reflexivity|]. intros m ms. unfold WriteMessage.
  replace (len (m :: ms) =? 0) with false
    by (symmetry; apply Z.eqb_neq; unfold len; cbn [length]; lia).
  unfold w_encode. unfold bind at 1 2, emit, ret.
  set (raw := encode _ _ _).
  assert (extends (bind (w_compress X raw)
            (λ data, bind (buildRequest X w raw data) (λ req, fire X req))))
    as Hrest.
  { apply extends_bind; [apply extends_w_compress|]. intros data.
    apply extends_bind; [apply extends_buildRequest|]. intros req.
    apply extends_fire. }
  destruct (Hrest (t ++ [EvEncode (m :: ms)])) as [t' Ht'].
  exists t'. rewrite Ht'. by rewrite <- app_assoc.
Qed.
End WriterClaims.

Section WriterExamples.
#[local] Existing Instance ascii_tables.

(** An empty destination has no room for the token: the first store of
    [copyIncompressible] is out of range. *)
Example copyIncompressible_empty_destination (src : list Z) :
  copyIncompressible src [] = Panicked.
Proof.
  unfold copyIncompressible. rewrite !store_empty. by destruct (_ <? _).
Qed.

(** The runs of [TestWriter]: a message sent to a server that accepts it,
    and to one that answers with the vendor error. *)
Example WriteMessage_short_message :
  WriteMessage (test_env (mkResponse 200 ∅ [])) test_writer [ShortMessage] []
  = (Done tt,
     [EvEncode [ShortMessage];
      EvCompress (encode map_to_list test_writer [ShortMessage]);
      EvBuildRequest (encode map_to_list test_writer [ShortMessage])
        (literal_block (encode map_to_list test_writer [ShortMessage]));
      EvDo (mkRequest "POST" (uri test_writer)
              (<["Authorization"%string :=
                   ["LOG 123:K4wbuMClChy4x9uBm4WnlAsxWe0="%string]]>
                 (list_to_map
                    [("Content-Type"%string, hContentType);
                     ("Content-Length"%string, ["47"%string]);
                     ("Content-Md5"%string,
                      ["00000000000000000000000000000000"%string]);
                     ("Date"%string, ["Wed, 01 Jan 2020 00:00:00 GMT"%string]);
                     ("Host"%string, ["127.0.0.1:8080"%string]);
                     ("X-Log-Apiversion"%string, hApiVersion);
                     ("X-Log-Bodyrawsize"%string, ["45"%string]);
                     ("X-Log-Compresstype"%string, hCompressType);
                     ("X-Log-Signaturemethod"%string, hSignatureMethod)]))
              (literal_block (encode map_to_list test_writer [ShortMessage])));
      EvClose]).
Proof. by vm_compute. Qed.

Example WriteMessage_error_message :
  (WriteMessage (test_env test_response) test_writer [ShortMessage] []).1
  = Failed (ErrAliyun
              (mkAliyunError 401 "ParameterInvalid" DefaultErrorText "123")).
Proof. by vm_compute. Qed.
End WriterExamples.

(** * Further properties *)

(** ** The signature and the request builder *)

Section SignatureMore.
Context `{!UnicodeTables}.
Implicit Types (kvs : list (string * list string)) (req : Request).

(** X1: the signature does not depend on the order in which the header
    map is walked. *)
Theorem signature_order_independent (secret : list Z) req kvs kvs' :
  kvs ≡ₚ kvs' →
  signature_in kvs secret req = signature_in kvs' secret req.
Proof.
  intros Hp. unfold signature_in. by rewrite (signStr_in_order kvs kvs' req Hp).
Qed.
End SignatureMore.

Section OrderExample.
#[local] Existing Instance ascii_tables.

Lemma signature_order_independent_witness :
  map_to_list (ReqHeader test_request)
    ≡ₚ reverse (map_to_list (ReqHeader test_request))
  ∧ signature_in (map_to_list (ReqHeader test_request))
      (bytes_of_string "321") test_request
    = signature_in (reverse (map_to_list (ReqHeader test_request)))
        (bytes_of_string "321") test_request.
Proof.
  assert (map_to_list (ReqHeader test_request)
            ≡ₚ reverse (map_to_list (ReqHeader test_request))) as Hp
    by (symmetry; apply reverse_Permutation).
  split; [exact Hp|].
  exact (signature_order_independent (bytes_of_string "321") test_request
           _ _ Hp).
Defined.
End OrderExample.

Section SignatureLength.
Context `{!UnicodeTables}.
Implicit Types (kvs : list (string * list string)) (req : Request).

Lemma be_bytes_length (n : nat) (x : Z) : length (be_bytes n x) = n.
Proof. unfold be_bytes. by rewrite length_fmap, length_reverse, length_seq. Qed.

Lemma sha1_length (msg : list Z) : length (sha1 msg) = 20%nat.
Proof.
  unfold sha1. destruct (foldl _ _ _) as [[[[h0 h1] h2] h3] h4].
  by rewrite !length_app, !be_bytes_length.
Qed.

Lemma string_of_list_ascii_length (l : list ascii) :
  String.length (string_of_list_ascii l) = length l.
Proof. induction l as [|a l IH]; [done|]. cbn. by rewrite IH. Qed.

Lemma b64_encode_length_20 (l : list Z) :
  length l = 20%nat → length (b64_encode l) = 28%nat.
Proof.
  intros Hl. do 21 (destruct l as [|? l]; [done|]). all: try done.
Qed.

(** X2: the signature is always 28 characters long, the base64 form of a
    20-byte digest. *)
Theorem signature_length (secret : list Z) req kvs :
  String.length (signature_in kvs secret req) = 28%nat.
Proof.
  unfold signature_in, EncodeToString.
  rewrite string_of_list_ascii_length. apply b64_encode_length_20.
  unfold hmac_sha1. apply sha1_length.
Qed.
End SignatureLength.

Section BuilderMore.
Context `{!UnicodeTables}.
Variable X : Env.
Implicit Types (w : writer) (raw data : list Z) (req : Request).

(** The string to sign is the same for two requests that agree on what
    [signature] reads. *)
Lemma signStr_in_agree req1 req2 kvs1 kvs2 :
  kvs1 ≡ₚ map_to_list (ReqHeader req1) →
  kvs2 ≡ₚ map_to_list (ReqHeader req2) →
  Method req1 = Method req2 →
  ReqURL req1 = ReqURL req2 →
  (∀ k, signed_header k → ReqHeader req1 !! k = ReqHeader req2 !! k) →
  signStr_in kvs1 req1 = signStr_in kvs2 req2.
Proof.
  intros Hp1 Hp2 Hm Hu Hh. unfold signStr_in. rewrite Hm, Hu.
  rewrite !(Header_Get_agree (ReqHeader req1) (ReqHeader req2))
    by (apply Hh; unfold signed_header; auto).
  do 3 f_equal. apply sort_Strings_order.
  rewrite !sections_in_filter, Hp1, Hp2.
  apply fmap_Permutation, vendor_entries_perm.
  intros k Hk. apply Hh. by do 3 right.
Qed.

Lemma Authorization_not_signed (k : string) :
  signed_header k → "Authorization"%string ≠ k.
Proof.
  intros Hk <-. destruct Hk as [Hk|[Hk|[Hk|Hk]]]; by vm_compute in Hk.
Qed.

(** X3: the request [buildRequest] returns verifies: its [Authorization]
    header is [LOG <accessKeyId>:<signature>], the signature being the one
    of the returned request itself under the writer's secret, as a
    receiver recomputes it from the request it gets. *)
Theorem buildRequest_authorization w raw data (t t' : list event) req :
  (∀ h, env_range_Header X h ≡ₚ map_to_list h) →
  buildRequest X w raw data t = (Done req, t') →
  ReqHeader req !! "Authorization"%string
  = Some ["LOG " +:+ appKey w +:+ ":" +:+ signature (appSecret w) req].
Proof.
  intros Hrange. unfold buildRequest, bind, emit, lift_sum, lift, ret.
  destruct (env_NewRequest X (method w) (uri w) data) as [e|r]; [done|].
  intros [= <- _]. cbn [ReqHeader]. rewrite lookup_insert_eq.
  match goal with
  | |- Some [_ +:+ _ +:+ _ +:+ ?a] = Some [_ +:+ _ +:+ _ +:+ ?b] =>
      assert (a = b) as ->; [|done]
  end.
  unfold signature, signature_in.
  apply (f_equal (λ s, EncodeToString
                         (hmac_sha1 (appSecret w) (bytes_of_string s)))).
  apply signStr_in_agree; try done.
  intros k Hk. cbn [ReqHeader]. symmetry.
  apply lookup_insert_ne. by apply Authorization_not_signed.
Qed.
End BuilderMore.

Section BuilderExample.
#[local] Existing Instance ascii_tables.

Lemma buildRequest_authorization_witness :
  (∀ h, env_range_Header (test_env test_response) h ≡ₚ map_to_list h)
  ∧ ∃ req t',
      buildRequest (test_env test_response) test_writer [1] [2] []
      = (Done req, t')
      ∧ ReqHeader req !! "Authorization"%string
        = Some ["LOG " +:+ appKey test_writer +:+ ":"
                  +:+ signature (appSecret test_writer) req].
Proof.
  assert (∀ h, env_range_Header (test_env test_response) h ≡ₚ map_to_list h)
    as Hr by done.
  split; [exact Hr|]. eexists _, _. split; [reflexivity|].
  exact (buildRequest_authorization (test_env test_response) test_writer
           [1] [2] [] _ _ Hr eq_refl).
Defined.
End BuilderExample.

(** ** The compressor *)

Section CompressMore.
Variable CompressBlock : list Z → list Z → error + (list Z * Z).
Implicit Types (data src dst out written : list Z).

Lemma overwrite_buffer_length data written :
  length (overwrite (buffer data) written)
  = Z.to_nat (CompressBlockBound (len data))
  ∧ len (overwrite (buffer data) written) = CompressBlockBound (len data)
  ∧ overwrite (buffer data) written ≠ [].
Proof.
  destruct (bound_buffer data) as [Hb Hb16].
  assert (length (overwrite (buffer data) written)
          = Z.to_nat (CompressBlockBound (len data))) as Hl.
  { unfold buffer. by rewrite overwrite_length, length_replicate. }
  split; [done|]. split.
  - unfold len at 1. rewrite Hl. lia.
  - intros Hnil. rewrite Hnil in Hl. cbn [length] in Hl. lia.
Qed.

Lemma literal_block_nonempty src : (1 ≤ length (literal_block src))%nat.
Proof.
  unfold literal_block. rewrite length_app.
  rewrite literal_header_length by apply len_nonneg.
  destruct (len src <? 0xF); lia.
Qed.

(** The fallback of [compress]: the literal block, whatever the library
    left in the destination. *)
Lemma compress_fallback data written :
  CompressBlock data (buffer data) = inr (written, 0) →
  compress CompressBlock data = Done (literal_block data).
Proof.
  intros Hcb. unfold compress. fold (buffer data). rewrite Hcb.
  destruct (overwrite_buffer_length data written) as (Hl & Hlz & Hne).
  cbn [Z.eqb]. rewrite copyIncompressible_spec by done.
  destruct (literal_block_length data) as [Hle _].
  assert (literal_count data (overwrite (buffer data) written)
          = length (literal_block data)) as ->.
  { unfold literal_count. rewrite decide_True; [done|].
    rewrite Hl. unfold len at 1 in Hle. lia. }
  rewrite firstn_all. unfold slice_to.
  rewrite (proj2 (Z.leb_le _ _)) by lia.
  rewrite (proj2 (Z.leb_le _ _)) by (unfold len; rewrite length_app; lia).
  cbn [andb]. by rewrite Nat2Z.id, take_app_length.
Qed.

Lemma compress_within data written (n : Z) :
  CompressBlock data (buffer data) = inr (written, n) →
  0 ≤ n ≤ CompressBlockBound (len data) →
  ∃ out,
    compress CompressBlock data = Done out
    ∧ (n = 0 → out = literal_block data)
    ∧ (n ≠ 0 →
       out = take (Z.to_nat n) (overwrite (buffer data) written)
       ∧ len out = n).
Proof.
  intros Hcb Hn. destruct (decide (n = 0)) as [->|Hne].
  - exists (literal_block data). split; [by eapply compress_fallback|].
    by split.
  - exists (take (Z.to_nat n) (overwrite (buffer data) written)).
    destruct (overwrite_buffer_length data written) as (Hl & Hlz & _).
    split; [|split; [done|intros _; split; [done|]]].
    + unfold compress. fold (buffer data). rewrite Hcb.
      rewrite (proj2 (Z.eqb_neq _ _)) by done. unfold slice_to.
      rewrite (proj2 (Z.leb_le _ _)) by lia.
      by rewrite (proj2 (Z.leb_le _ _)) by lia.
    + unfold len at 1. rewrite length_take, Hl. lia.
Qed.

(** X4: when the library's count is within the destination, [compress]
    returns, with neither an error nor a panic: the literal block for a
    count of zero, else the first [n] bytes of the destination as the
    library left it. *)
Theorem compress_returns data written (n : Z) :
  CompressBlock data (buffer data) = inr (written, n) →
  0 ≤ n ≤ CompressBlockBound (len data) →
  ∃ out,
    compress CompressBlock data = Done out
    ∧ (n = 0 → out = literal_block data)
    ∧ (n ≠ 0 →
       out = take (Z.to_nat n) (overwrite (buffer data) written)
       ∧ len out = n).
Proof. apply compress_within. Qed.

Lemma compress_Failed_library data (e : error) :
  compress CompressBlock data = Failed e →
  CompressBlock data (buffer data) = inl e.
Proof.
  unfold compress. fold (buffer data).
  destruct (CompressBlock data (buffer data)) as [e'|[written n]];
    [by intros [= ->]|].
  destruct (overwrite_buffer_length data written) as (_ & _ & Hne).
  destruct (n =? 0).
  - rewrite copyIncompressible_spec by done.
    unfold slice_to. by case_match.
  - unfold slice_to. by case_match.
Qed.

(** X5: [compress] fails only with the error of the library: the
    fallback adds no error of its own. *)
Theorem compress_fails_with_library data (e : error) :
  compress CompressBlock data = Failed e
  ↔ CompressBlock data (buffer data) = inl e.
Proof.
  split; [apply compress_Failed_library|].
  unfold compress. fold (buffer data). by intros ->.
Qed.

End CompressMore.

Lemma compress_returns_witness :
  incompressible [1; 2; 3] (buffer [1; 2; 3]) = inr ([], 0)
  ∧ 0 ≤ 0 ≤ CompressBlockBound (len [1; 2; 3])
  ∧ ∃ out, compress incompressible [1; 2; 3] = Done out
           ∧ (0 = 0 → out = literal_block [1; 2; 3])
           ∧ (0 ≠ 0 →
              out = take (Z.to_nat 0) (overwrite (buffer [1; 2; 3]) [])
              ∧ len out = 0).
Proof.
  assert (0 ≤ 0 ≤ CompressBlockBound (len [1; 2; 3])) as Hn by (by vm_compute).
  split; [reflexivity|]. split; [exact Hn|].
  exact (compress_returns incompressible [1; 2; 3] [] 0 eq_refl Hn).
Defined.


Lemma compress_fails_with_library_witness :
  compress failing_compressor [1; 2; 3]
  = Failed (ErrLibrary "lz4: invalid source or destination buffer too short").
Proof.
  exact (proj2 (compress_fails_with_library failing_compressor [1; 2; 3] _)
           eq_refl).
Defined.

Section LiteralBlockMore.
Implicit Types (src dst : list Z).

Lemma read_run_length_run (q : nat) :
  ∀ acc r rest,
    0 ≤ r < 0xFF →
    read_run_length acc (replicate q 0xFF ++ r :: rest)
    = Some (acc + 0xFF * Z.of_nat q + r, rest).
Proof.
  induction q as [|q IH]; intros acc r rest Hr.
  - cbn [replicate app read_run_length].
    rewrite (proj2 (Z.eqb_neq _ _)) by lia. do 2 f_equal. lia.
  - cbn [replicate app read_run_length]. cbn [Z.eqb Pos.eqb].
    rewrite IH by done. do 2 f_equal. lia.
Qed.

(** The literal block of [src] reads back as [src]. *)
Lemma read_literal_block_block src :
  read_literal_block (literal_block src) = Some src.
Proof.
  pose proof (len_nonneg src) as H0.
  unfold literal_block, literal_header.
  destruct (len src <? 0xF) eqn:Hs.
  - apply Z.ltb_lt in Hs. cbn [app read_literal_block].
    rewrite Z.div_mul by lia.
    rewrite (proj2 (Z.eqb_neq _ _)) by lia. by rewrite Z.eqb_refl.
  - apply Z.ltb_ge in Hs. cbn [app read_literal_block].
    change (0xF0 / 16 =? 0xF) with true. cbn match.
    rewrite <- app_assoc. cbn [app].
    rewrite read_run_length_run by (apply Z.mod_pos_bound; lia).
    rewrite Z2Nat.id by (apply Z.div_pos; lia).
    pose proof (Z.div_mod (len src - 0xF) 0xFF ltac:(lia)).
    rewrite (proj2 (Z.eqb_eq _ _)) by lia. done.
Qed.

(** X7: what [copyIncompressible] writes can be read back: in a
    destination that holds the whole block, the bytes it counts are an
    LZ4 block of one literal run whose literals are the source. *)
Theorem copyIncompressible_readable src dst dst' (n : Z) :
  (length (literal_block src) ≤ length dst)%nat →
  copyIncompressible src dst = Done (dst', n) →
  read_literal_block (take (Z.to_nat n) dst') = Some src.
Proof.
  intros Hfit. pose proof (literal_block_nonempty src).
  rewrite copyIncompressible_spec by (destruct dst; cbn in *; [lia|done]).
  unfold literal_count. rewrite decide_True by done.
  intros [= <- <-]. rewrite Nat2Z.id, firstn_all, take_app_length.
  apply read_literal_block_block.
Qed.
End LiteralBlockMore.

Lemma copyIncompressible_readable_witness :
  (length (literal_block [1; 2; 3]%Z) ≤ length (replicate 10 0%Z))%nat
  ∧ copyIncompressible [1; 2; 3] (replicate 10 0)
    = Done ([48; 1; 2; 3; 0; 0; 0; 0; 0; 0], 4)
  ∧ read_literal_block (take (Z.to_nat 4) [48; 1; 2; 3; 0; 0; 0; 0; 0; 0])
    = Some [1; 2; 3].
Proof.
  assert (length (literal_block [1; 2; 3]%Z) ≤ length (replicate 10 0%Z))%nat
    as Hfit by (vm_compute; lia).
  split; [exact Hfit|]. split; [reflexivity|].
  exact (copyIncompressible_readable [1; 2; 3] (replicate 10 0) _ 4 Hfit eq_refl).
Defined.

(** ** The encoder *)

Section EncoderMore.
Variable range_Contents : gmap string string → list (string * string).
Implicit Types (w : writer) (messages : list Message) (m : Message).

Lemma contents_of_pairs m :
  omap content_pair (contents_of range_Contents m)
  = range_Contents (Contents m).
Proof.
  unfold contents_of.
  induction (range_Contents (Contents m)) as [|[k v] l IH]; [done|].
  cbn [fmap list_fmap omap list_omap content_pair Key Value fst snd].
  f_equal. exact IH.
Qed.

(** X8: every field of a message reaches the payload once: when [range]
    yields each entry of the contents once, the log decoded for a message
    has as many contents as the message has fields, and as a map they
    are the contents of the message. *)
Theorem encode_contents_preserved w messages (i : nat) m :
  (∀ c : gmap string string, range_Contents c ≡ₚ map_to_list c) →
  messages !! i = Some m →
  ∃ g lg,
    Unmarshal (encode range_Contents w messages) = Some g
    ∧ Logs g !! i = Some lg
    ∧ length (LogContents lg) = size (Contents m)
    ∧ contents_map lg = Contents m.
Proof.
  intros Hrange Hm. exists (group_of range_Contents w messages). eexists.
  split; [apply encode_decodes|].
  cbn [group_of Logs]. rewrite list_lookup_fmap, Hm.
  split; [done|]. cbn [LogContents]. split.
  - unfold contents_of.
    by rewrite length_fmap, Hrange, length_map_to_list.
  - unfold contents_map. cbn [LogContents]. rewrite contents_of_pairs.
    rewrite (list_to_map_proper _ (map_to_list (Contents m))).
    + apply list_to_map_to_list.
    + rewrite Hrange. apply NoDup_fst_map_to_list.
    + apply Hrange.
Qed.

(** X9: a batch is encoded as its first part followed by one log record
    for each further message: the payload of [ms1 ++ ms2] is the payload
    of [ms1] and then the records of [ms2], in order. *)
Theorem encode_app w (ms1 ms2 : list Message) :
  encode range_Contents w (ms1 ++ ms2)
  = encode range_Contents w ms1
      ++ mjoin (log_record range_Contents <$> ms2).
Proof.
  unfold encode, Marshal, enc_fields, LogGroup_fields.
  cbn [group_of Topic Source Logs].
  rewrite !fmap_app, !concat_app, <- !app_assoc. do 3 f_equal.
  induction ms2 as [|m ms2 IH]; [done|].
  cbn [fmap list_fmap concat mjoin list_join]. by rewrite IH.
Qed.
End EncoderMore.

Lemma encode_contents_preserved_witness :
  (∀ c : gmap string string, map_to_list c ≡ₚ map_to_list c)
  ∧ [ShortMessage] !! 0%nat = Some ShortMessage
  ∧ ∃ g lg,
      Unmarshal (encode map_to_list test_writer [ShortMessage]) = Some g
      ∧ Logs g !! 0%nat = Some lg
      ∧ length (LogContents lg) = size (Contents ShortMessage)
      ∧ contents_map lg = Contents ShortMessage.
Proof.
  assert (∀ c : gmap string string, map_to_list c ≡ₚ map_to_list c) as Hr
    by done.
  split; [exact Hr|]. split; [reflexivity|].
  exact (encode_contents_preserved map_to_list test_writer [ShortMessage] 0
           ShortMessage Hr eq_refl).
Defined.

(** ** The pipeline *)

Section PipelineMore.
Context `{!UnicodeTables}.
Variable X : Env.
Implicit Types (w : writer) (messages : list Message) (t : list event).

Lemma validateResponse_nil scan (resp : Response) :
  validateResponse scan resp = None ↔ StatusCode resp < StatusBadRequest.
Proof.
  unfold validateResponse. destruct (StatusCode resp <? StatusBadRequest) eqn:Hs.
  - apply Z.ltb_lt in Hs. done.
  - apply Z.ltb_ge in Hs. split; [|lia]. by destruct (json_Decode _ _ _).
Qed.

(** Unfolds a run of [WriteMessage] on at least one message into the
    cases of its stages. *)
Ltac pipeline_cases :=
  unfold WriteMessage;
  match goal with
  | |- context [len (?m :: ?ms) =? 0] =>
      replace (len (m :: ms) =? 0) with false
        by (symmetry; apply Z.eqb_neq; unfold len; cbn [length]; lia)
  end;
  unfold w_encode, w_compress, buildRequest, fire, bind, emit, ret, lift_sum,
    lift;
  destruct (compress _ _) as [data|e1| |] eqn:Hc; cbn [fst snd];
  [destruct (env_NewRequest X _ _ _) as [e2|r] eqn:Hn; cbn [fst snd];
   [|destruct (env_Do X _) as [e3|resp] eqn:Hd; cbn [fst snd];
     [|destruct (validateResponse _ resp) as [e4|] eqn:Hv; cbn [fst snd]]]
  | | | ].

(** X10: a nil error means one exchange that went well: when
    [WriteMessage] returns nil for at least one message, the payload was
    encoded and compressed, [buildRequest] made a request of the payload
    and its compressed form, the client was called once, with that very
    request, and answered with a status below 400, and the body of the
    response was closed. *)
Theorem WriteMessage_success w (m : Message) (ms : list Message) t t' :
  WriteMessage X w (m :: ms) t = (Done tt, t') →
  ∃ data req resp,
    compress (env_CompressBlock X)
      (encode (env_range_Contents X) w (m :: ms)) = Done data
    ∧ buildRequest X w (encode (env_range_Contents X) w (m :: ms)) data
        (t ++ [EvEncode (m :: ms);
               EvCompress (encode (env_range_Contents X) w (m :: ms))])
      = (Done req,
         t ++ [EvEncode (m :: ms);
               EvCompress (encode (env_range_Contents X) w (m :: ms));
               EvBuildRequest (encode (env_range_Contents X) w (m :: ms))
                 data])
    ∧ env_Do X req = inr resp
    ∧ StatusCode resp < StatusBadRequest
    ∧ t' = t ++ [EvEncode (m :: ms);
                 EvCompress (encode (env_range_Contents X) w (m :: ms));
                 EvBuildRequest (encode (env_range_Contents X) w (m :: ms)) data;
                 EvDo req; EvClose].
Proof.
  pipeline_cases; intros Hrun; simplify_eq.
  eexists data, _, resp. split; [done|].
  split; [rewrite Hn; cbv beta iota; by rewrite <- !app_assoc|].
  split; [exact Hd|].
  split; [by apply (validateResponse_nil (env_json_scan X))|].
  by rewrite <- !app_assoc.
Qed.

Lemma count_Do_cons (e : event) t :
  count_Do (e :: t) = ((if is_Do e then 1 else 0) + count_Do t)%nat.
Proof.
  unfold count_Do. rewrite filter_cons. by destruct (is_Do e).
Qed.

(** X11: no retry, and nothing is sent before it is ready: a run of
    [WriteMessage] calls the client at most once, and only after the
    payload was compressed and the request built. *)
Theorem WriteMessage_one_call w messages t :
  ∃ delta,
    (WriteMessage X w messages t).2 = t ++ delta
    ∧ (count_Do delta ≤ 1)%nat
    ∧ (count_Do delta = 1%nat →
       ∃ data r,
         compress (env_CompressBlock X)
           (encode (env_range_Contents X) w messages) = Done data
         ∧ env_NewRequest X (method w) (uri w) data = inr r).
Proof.
  destruct messages as [|m ms].
  { exists []. cbn. rewrite app_nil_r. split; [done|].
    change (count_Do []) with 0%nat. split; [lia|done]. }
  pipeline_cases; rewrite <- ?app_assoc; cbn [app]; eexists;
    (split; [reflexivity|]); rewrite !count_Do_cons; cbn [is_Do];
    change (count_Do []) with 0%nat; (split; [lia|]);
    try (intros; lia); eauto.
Qed.

(** X12: errors come through unchanged: an error [WriteMessage] returns
    is the error of the library compressor, of the construction of the
    request, or of the client, or is what the validator made of the
    response. *)
Theorem WriteMessage_error w messages t (e : error) :
  (WriteMessage X w messages t).1 = Failed e →
  env_CompressBlock X (encode (env_range_Contents X) w messages)
    (buffer (encode (env_range_Contents X) w messages)) = inl e
  ∨ (∃ data, env_NewRequest X (method w) (uri w) data = inl e)
  ∨ (∃ req, env_Do X req = inl e)
  ∨ (∃ req resp,
        env_Do X req = inr resp
        ∧ validateResponse (env_json_scan X) resp = Some e).
Proof.
  destruct messages as [|m ms]; [done|].
  pipeline_cases; intros Hrun; simplify_eq; eauto 10.
  left. by apply compress_Failed_library.
Qed.
End PipelineMore.

Section PipelineExamples.
#[local] Existing Instance ascii_tables.

Lemma WriteMessage_success_witness :
  (WriteMessage (test_env ok_response) test_writer [ShortMessage] []).1
    = Done tt
  ∧ ∃ data req resp,
      compress (env_CompressBlock (test_env ok_response))
        (encode (env_range_Contents (test_env ok_response)) test_writer
           [ShortMessage]) = Done data
      ∧ (buildRequest (test_env ok_response) test_writer
           (encode (env_range_Contents (test_env ok_response)) test_writer
              [ShortMessage]) data
           [EvEncode [ShortMessage];
            EvCompress
              (encode (env_range_Contents (test_env ok_response))
                 test_writer [ShortMessage])]).1 = Done req
      ∧ env_Do (test_env ok_response) req = inr resp
      ∧ StatusCode resp < StatusBadRequest.
Proof.
  split; [by vm_compute|].
  destruct (WriteMessage_success (test_env ok_response) test_writer
              ShortMessage [] [] _ WriteMessage_short_message)
    as (data & req & resp & H1 & H2 & H3 & H4 & _).
  exists data, req, resp.
  exact (conj H1 (conj (f_equal fst H2) (conj H3 H4))).
Defined.

Lemma WriteMessage_error_witness :
  (WriteMessage (test_env test_response) test_writer [ShortMessage] []).1
    = Failed (ErrAliyun
                (mkAliyunError 401 "ParameterInvalid" DefaultErrorText "123"))
  ∧ ∃ req resp,
      env_Do (test_env test_response) req = inr resp
      ∧ validateResponse (env_json_scan (test_env test_response)) resp
        = Some (ErrAliyun
                  (mkAliyunError 401 "ParameterInvalid" DefaultErrorText "123")).
Proof.
  split; [exact WriteMessage_error_message|].
  destruct (WriteMessage_error (test_env test_response) test_writer
              [ShortMessage] [] _ WriteMessage_error_message)
    as [H|[[data H]|[[req H]|(req & resp & H1 & H2)]]];
    [discriminate H|discriminate H|discriminate H|].
  exists req, resp. exact (conj H1 H2).
Defined.
End PipelineExamples.

Section BuilderHeaders.
Context `{!UnicodeTables}.
Variable X : Env.

(** X13: the headers of a request built for a writer made by [NewWriter]:
    ten in all, with the host of the endpoint, the decimal length of the
    compressed body, the upper-case hexadecimal digest of that body, the
    decimal length of the raw payload, and the fixed content type,
    version, compression and signature method. *)
Theorem buildRequest_headers (u : URL) (tp sr key : string)
    (secret raw data : list Z) (t t' : list event) (req : Request) :
  buildRequest X (NewWriter u tp sr key secret) raw data t = (Done req, t') →
  size (ReqHeader req) = 10%nat
  ∧ Header_Get (ReqHeader req) "Host" = Host u
  ∧ Header_Get (ReqHeader req) "Content-Length" = Itoa (len data)
  ∧ Header_Get (ReqHeader req) "Content-MD5" = hex_upper (env_md5 X data)
  ∧ Header_Get (ReqHeader req) "X-Log-Bodyrawsize" = Itoa (len raw)
  ∧ Header_Get (ReqHeader req) "Date" = env_gmtNow X
  ∧ Header_Get (ReqHeader req) "Content-Type" = "application/x-protobuf"%string
  ∧ Header_Get (ReqHeader req) "X-Log-Apiversion" = "0.6.0"%string
  ∧ Header_Get (ReqHeader req) "X-Log-Compresstype" = "lz4"%string
  ∧ Header_Get (ReqHeader req) "X-Log-Signaturemethod" = "hmac-sha1"%string.
Proof.
  unfold buildRequest, bind, emit, lift_sum, lift, ret.
  destruct (env_NewRequest X _ _ _) as [e|r]; [done|].
  intros [= <- _]. cbn [ReqHeader NewWriter hHost].
  repeat split; by vm_compute.
Qed.
End BuilderHeaders.

Section HeadersExample.
#[local] Existing Instance ascii_tables.

Lemma buildRequest_headers_witness :
  ∃ req t',
    buildRequest (test_env ok_response)
      (NewWriter test_uri "test-topic" "127.0.0.1" "123" (bytes_of_string "321"))
      [1] [2] [] = (Done req, t')
    ∧ size (ReqHeader req) = 10%nat
    ∧ Header_Get (ReqHeader req) "Host" = Host test_uri.
Proof.
  eexists _, _. split; [reflexivity|].
  destruct (buildRequest_headers (test_env ok_response) test_uri "test-topic"
              "127.0.0.1" "123" (bytes_of_string "321") [1] [2] [] _ _ eq_refl)
    as (H1 & H2 & _).
  by split.
Defined.
End HeadersExample.

Section PipelineSafety.
Context `{!UnicodeTables}.
Variable X : Env.

Lemma compress_no_panic (data : list Z) :
  (∀ src dst written n,
      env_CompressBlock X src dst = inr (written, n) → 0 ≤ n ≤ len dst) →
  compress (env_CompressBlock X) data ≠ Panicked
  ∧ compress (env_CompressBlock X) data ≠ OutOfFuel.
Proof.
  intros Hlib.
  destruct (env_CompressBlock X data (buffer data)) as [e|[written n]] eqn:Hcb.
  - unfold compress. fold (buffer data). by rewrite Hcb.
  - pose proof (Hlib _ _ _ _ Hcb) as Hn.
    destruct (bound_buffer data) as [Hb _]. fold (buffer data) in Hb.
    rewrite Hb in Hn.
    destruct (compress_within (env_CompressBlock X) data written n Hcb Hn)
      as (out & -> & _).
    done.
Qed.

(** X14: [WriteMessage] does not panic as long as the library's count is
    within the destination it was given: no slice is cut and no byte is
    stored out of range. *)
Theorem WriteMessage_no_panic (w : writer) (messages : list Message)
    (t : list event) :
  (∀ src dst written n,
      env_CompressBlock X src dst = inr (written, n) → 0 ≤ n ≤ len dst) →
  (WriteMessage X w messages t).1 ≠ Panicked
  ∧ (WriteMessage X w messages t).1 ≠ OutOfFuel.
Proof.
  intros Hlib. destruct messages as [|m ms]; [done|].
  destruct (compress_no_panic (encode (env_range_Contents X) w (m :: ms)) Hlib)
    as [Hp Hf].
  unfold WriteMessage.
  replace (len (m :: ms) =? 0) with false
    by (symmetry; apply Z.eqb_neq; unfold len; cbn [length]; lia).
  unfold w_encode, w_compress, buildRequest, fire, bind, emit, ret, lift_sum,
    lift.
  destruct (compress _ _) as [data|e1| |]; cbn [fst snd]; try done.
  destruct (env_NewRequest X _ _ _) as [e2|r]; cbn [fst snd]; [done|].
  destruct (env_Do X _) as [e3|resp]; cbn [fst snd]; [done|].
  by destruct (validateResponse _ resp).
Qed.
End PipelineSafety.

Section SafetyExample.
#[local] Existing Instance ascii_tables.

Lemma WriteMessage_no_panic_witness :
  (∀ src dst written n,
      env_CompressBlock (test_env ok_response) src dst = inr (written, n) →
      0 ≤ n ≤ len dst)
  ∧ (WriteMessage (test_env ok_response) test_writer [ShortMessage] []).1
    ≠ Panicked.
Proof.
  assert (∀ src dst written n,
            env_CompressBlock (test_env ok_response) src dst
            = inr (written, n) → 0 ≤ n ≤ len dst) as Hlib.
  { intros src dst written n [= _ <-]. pose proof (len_nonneg dst). lia. }
  split; [exact Hlib|].
  exact (proj1 (WriteMessage_no_panic (test_env ok_response) test_writer
                  [ShortMessage] [] Hlib)).
Defined.
End SafetyExample.
